(** * Carewurx caregiver optimizer: shallow embedding and verified properties

    The development follows [python_agent/caregiver_optimizer.py]:
    clients and caregiver positions, the per-position acceptance rules,
    the backtracking assignor, the position-count search, the validator,
    the oversized-client splitter, the orchestrator and the dictionary
    front end [generate_optimal_schedule].

    Python integers are unbounded and are modelled by [Z]; [//] and [%] with
    a positive divisor are [Z.div] and [Z.modulo].  Lists are [list]; a
    position list is a list of position values that is updated by index,
    which is what in-place mutation of the position objects amounts to as
    long as the objects of a list are pairwise distinct (they are created
    fresh by [attempt_assignment] and [handle_mandatory_splits]). *)

From stdpp Require Import base decidable option numbers list strings pretty gmap sorting.

Local Open Scope Z_scope.

(** ** Data model *)

(** The source has no [__eq__] on [Client], so [client in self.clients] and
    [self.clients.remove(client)] compare object identity.  [obj_id] stands
    for the identity of a [Client] object: [Given i] is the object built by
    [generate_optimal_schedule] from record [i] (or any object handed in by a
    caller), [SplitPart k i] is the object built by [handle_mandatory_splits]
    for part [i] of the [k]-th client of its input list. *)
Inductive obj_id : Type :=
  | Given (i : nat)
  | SplitPart (k i : nat).

Global Instance obj_id_eq_dec : EqDecision obj_id.
Proof. solve_decision. Defined.

Record Client : Type := mkClient {
  client_obj : obj_id;
  name : string;
  hours : Z;
  days : Z;
  needs_driver : bool;
  zip_code : string
}.

Global Instance Client_eq_dec : EqDecision Client.
Proof. solve_decision. Defined.

Record CaregiverPosition : Type := mkPosition {
  position_id : Z;
  clients : list Client;
  total_hours : Z;
  working_days : Z;
  requires_driver : option bool;
  zip_codes : list string;
  position_type : option string;
  driver_type : option string
}.

(** [CaregiverPosition.__init__] *)
Definition new_position (pid : Z) : CaregiverPosition :=
  {| position_id := pid; clients := []; total_hours := 0; working_days := 0;
     requires_driver := None; zip_codes := [];
     position_type := None; driver_type := None |}.

(** Truth value of a list ([if self.clients], [if not self.clients]). *)
Definition truthy {A} (l : list A) : bool :=
  match l with [] => false | _ :: _ => true end.

(** [any(c.needs_driver for c in cs)] *)
Definition any_needs_driver (cs : list Client) : bool := existsb needs_driver cs.

(** [sum(c.hours for c in cs)] and [sum(c.days for c in cs)] *)
Definition sum_hours (cs : list Client) : Z := foldr (fun c acc => hours c + acc) 0 cs.
Definition sum_days (cs : list Client) : Z := foldr (fun c acc => days c + acc) 0 cs.

(** ** Position operations *)

(** CONSTRAINT 1 of [can_accept_client]:
    [self.requires_driver is not None and client.needs_driver != self.requires_driver] *)
Definition driver_mismatch (self : CaregiverPosition) (client : Client) : bool :=
  match requires_driver self with
  | None => false
  | Some b => negb (Bool.eqb (needs_driver client) b)
  end.

Definition can_accept_client (self : CaregiverPosition) (client : Client) : bool :=
  if driver_mismatch self client then false
  else if 45 <? total_hours self + hours client then false
  else if 5 <? working_days self + days client then false
  else true.

Definition assign_client (self : CaregiverPosition) (client : Client) : CaregiverPosition :=
  {| position_id := position_id self;
     clients := clients self ++ [client];
     total_hours := total_hours self + hours client;
     working_days := working_days self + days client;
     requires_driver :=
       if truthy (clients self) then requires_driver self
       else Some (needs_driver client);
     zip_codes :=
       if bool_decide (zip_code client ∈ zip_codes self) then zip_codes self
       else zip_codes self ++ [zip_code client];
     position_type := position_type self;
     driver_type := driver_type self |}.

(** [list.remove]: drops the first occurrence of the object. *)
Fixpoint list_remove (x : Client) (l : list Client) : list Client :=
  match l with
  | [] => []
  | y :: l' => if bool_decide (y = x) then l' else y :: list_remove x l'
  end.

(** [list(set(c.zip_code for c in cs if c.zip_code))].  The iteration order
    of a Python set is not specified; [elements] of a [gset] is likewise
    some fixed enumeration without duplicates, and statements about the
    result are made up to permutation. *)
Definition zip_set (cs : list Client) : gset string :=
  list_to_set (filter (fun z => z ≠ ""%string) (zip_code <$> cs)).

Definition recomputed_zip_codes (cs : list Client) : list string :=
  elements (zip_set cs).

Definition unassign_client (self : CaregiverPosition) (client : Client) : CaregiverPosition :=
  if bool_decide (client ∈ clients self) then
    let remaining := list_remove client (clients self) in
    {| position_id := position_id self;
       clients := remaining;
       total_hours := total_hours self - hours client;
       working_days := working_days self - days client;
       requires_driver :=
         if truthy remaining then Some (any_needs_driver remaining) else None;
       zip_codes := recomputed_zip_codes remaining;
       position_type := position_type self;
       driver_type := driver_type self |}
  else self.

(** Lines printed with a [Warning:] or [Error:] prefix are modelled as
    diagnostics; progress messages are not modelled. *)
Inductive diagnostic : Type :=
  | WarnClientNotFound (client_name : string) (pid : Z)
  | WarnSkippedRecord (index : nat)
  | WarnNoSolutionForRemaining (n : nat)
  | ErrNoPositionsFormed
  | ErrFinalValidationFailed
  | WarnHoursMismatch (original solution : Z).

(** What [unassign_client] prints: nothing when the client is found, the
    not-found warning otherwise. *)
Definition unassign_client_output (self : CaregiverPosition) (client : Client)
  : list diagnostic :=
  if bool_decide (client ∈ clients self) then []
  else [WarnClientNotFound (name client) (position_id self)].

(** ** Difficulty sort *)

(** [difficulty_score]: the tuple [(driver_priority, -hours, -days)]. *)
Definition difficulty_score (client : Client) : Z * Z * Z :=
  (if needs_driver client then 0 else 1, - hours client, - days client).

(** Python's order on tuples, as [<=]. *)
Definition score_le (a b : Z * Z * Z) : bool :=
  let '(a1, a2, a3) := a in
  let '(b1, b2, b3) := b in
  (a1 <? b1) || ((a1 =? b1) && ((a2 <? b2) || ((a2 =? b2) && (a3 <=? b3)))).

(** [sorted] is stable, so its result is determined by the keys; it is
    computed here by a stable insertion sort: an element is put in front of
    the first element whose key is not smaller. *)
Fixpoint insert_by_score (c : Client) (l : list Client) : list Client :=
  match l with
  | [] => [c]
  | d :: l' =>
      if score_le (difficulty_score c) (difficulty_score d) then c :: d :: l'
      else d :: insert_by_score c l'
  end.

Definition sort_by_assignment_difficulty (cs : list Client) : list Client :=
  foldr insert_by_score [] cs.

(** ** Backtracking assignor *)

(** The [for position in positions] loop of [backtrack_assignment] for one
    client: [js] are the indices still to be tried, [ps] is the current
    state of the position objects, [next] is the recursive call on the
    following client.  The result is [(true, ps')] when the call returns the
    position list and [(false, ps')] when it returns [None]; in both cases
    [ps'] is the state in which the position objects are left.  The indices
    come from [seq 0 (length ps)] and updates keep the length, so the two
    [None] cases of the lookups never occur. *)
Fixpoint try_positions
    (next : list CaregiverPosition -> bool * list CaregiverPosition)
    (current_client : Client) (js : list nat) (ps : list CaregiverPosition)
  : bool * list CaregiverPosition :=
  match js with
  | [] => (false, ps)
  | j :: js' =>
      match ps !! j with
      | None => try_positions next current_client js' ps
      | Some position =>
          if can_accept_client position current_client then
            let '(found, ps1) :=
              next (<[j := assign_client position current_client]> ps) in
            if found then (true, ps1)
            else
              match ps1 !! j with
              | None => try_positions next current_client js' ps1
              | Some position1 =>
                  try_positions next current_client js'
                    (<[j := unassign_client position1 current_client]> ps1)
              end
          else try_positions next current_client js' ps
      end
  end.

(** [backtrack_assignment] on the clients from [client_index] on. *)
Fixpoint backtrack_from (remaining : list Client) (ps : list CaregiverPosition)
  : bool * list CaregiverPosition :=
  match remaining with
  | [] => (true, ps)
  | current_client :: rest =>
      try_positions (backtrack_from rest) current_client (seq 0 (length ps)) ps
  end.

Definition backtrack_assignment (cs : list Client) (positions : list CaregiverPosition)
    (client_index : nat) : bool * list CaregiverPosition :=
  backtrack_from (drop client_index cs) positions.

(** ** Validator / classifier *)

(** One iteration of the loop of [all_constraints_satisfied]: [true] when
    the position passes (or is skipped because it is empty). *)
Definition position_ok (position : CaregiverPosition) : bool :=
  if negb (truthy (clients position)) then true
  else if negb ((16 <=? total_hours position) && (total_hours position <=? 45)) then false
  else if 5 <? working_days position then false
  else if negb (bool_decide
                  (requires_driver position = Some (any_needs_driver (clients position))))
       then false
  else true.

Definition all_constraints_satisfied (positions : list CaregiverPosition) : bool :=
  forallb position_ok positions.

(** Body of the re-numbering loop of [validate_and_return_solution]. *)
Definition finalize_position (new_id : Z) (position : CaregiverPosition)
  : CaregiverPosition :=
  let rd :=
    if truthy (clients position) then
      let current_req_driver := any_needs_driver (clients position) in
      match requires_driver position with
      | None => Some current_req_driver
      | Some b =>
          if negb (Bool.eqb b current_req_driver) then Some current_req_driver
          else Some b
      end
    else Some false in
  {| position_id := new_id;
     clients := clients position;
     total_hours := total_hours position;
     working_days := working_days position;
     requires_driver := rd;
     zip_codes := zip_codes position;
     position_type :=
       Some (if total_hours position <=? 24 then "Part-time"%string
             else "Full-time"%string);
     driver_type :=
       Some (if default false rd then "Driver"%string else "Non-driver"%string) |}.

(** [None] is the source's [None]; [Some []] is the empty list. *)
Definition validate_and_return_solution
    (positions_to_validate : list CaregiverPosition) (new_id_start : Z)
  : option (list CaregiverPosition) :=
  let populated_positions :=
    List.filter (fun pos => truthy (clients pos)) positions_to_validate in
  if negb (truthy populated_positions)
     && existsb (fun pos => truthy (clients pos)) positions_to_validate
  then None
  else if negb (truthy populated_positions) then Some []
  else if negb (all_constraints_satisfied populated_positions) then None
  else Some (imap (fun i position => finalize_position (new_id_start + Z.of_nat i) position)
                  populated_positions).

(** ** Position-count search *)

(** The set of client names carried by a list of positions, and by a list
    of clients (both are Python sets of strings in the source). *)
Definition assigned_names (positions : list CaregiverPosition) : gset string :=
  list_to_set (name <$> concat (clients <$> positions)).

Definition client_names (cs : list Client) : gset string :=
  list_to_set (name <$> cs).

Definition attempt_assignment (cs : list Client) (target_caregivers : Z)
    (position_id_start : Z) : option (list CaregiverPosition) :=
  if negb (truthy cs) then Some []
  else if target_caregivers =? 0 then None
  else
    let positions :=
      (fun i => new_position (position_id_start + i)) <$> seqZ 0 target_caregivers in
    let sorted_clients := sort_by_assignment_difficulty cs in
    let '(found, raw_assigned_positions) :=
      backtrack_assignment sorted_clients positions 0 in
    if found && truthy raw_assigned_positions then
      match validate_and_return_solution raw_assigned_positions position_id_start with
      | Some validated_solution =>
          if truthy validated_solution then
            if bool_decide (assigned_names validated_solution = client_names cs)
            then Some validated_solution
            else None
          else None
      | None => None
      end
    else None.

(** [math.ceil(a / b)] for [b > 0].  The source divides in floating point;
    the quotient of two integers below [2^53] in absolute value is rounded
    correctly and its ceiling is the exact one, which is what is modelled. *)
Definition ceil_div (a b : Z) : Z := - ((- a) / b).

(** The [for target_caregivers in range(...)] loop of
    [constraint_satisfaction_algorithm]; [targets] are the values of the
    range still to be tried. *)
Fixpoint search_targets (cs : list Client) (position_id_start : Z)
    (targets : list Z) : list CaregiverPosition :=
  match targets with
  | [] => []
  | target_caregivers :: later =>
      match attempt_assignment cs target_caregivers position_id_start with
      | Some solution_positions =>
          if truthy solution_positions then
            if bool_decide (assigned_names solution_positions = client_names cs)
            then solution_positions
            else search_targets cs position_id_start later
          else search_targets cs position_id_start later
      | None => search_targets cs position_id_start later
      end
  end.

Definition theoretical_min (cs : list Client) (total : Z) : Z :=
  let t := if 0 <? total then ceil_div total 45 else 0 in
  if truthy cs then Z.max 1 t else 0.

Definition practical_max (cs : list Client) : Z := Z.of_nat (length cs).

(** The part of [constraint_satisfaction_algorithm] after the zero-total
    special case: [cs] and [total] are the values of the variables
    [clients] and [total_hours] at line 116. *)
Definition search_range (cs : list Client) (total : Z) (position_id_start : Z)
  : list CaregiverPosition :=
  let lo := theoretical_min cs total in
  let hi := practical_max cs in
  search_targets cs position_id_start (seqZ lo (hi + 1 - lo)).

Definition positive_hours (cs : list Client) : list Client :=
  List.filter (fun c => 0 <? hours c) cs.

Definition constraint_satisfaction_algorithm (cs : list Client)
    (initial_position_id_start : Z) : list CaregiverPosition :=
  if negb (truthy cs) then []
  else
    let total := sum_hours cs in
    if total =? 0 then
      let cs' := positive_hours cs in
      if negb (truthy cs') then []
      else search_range cs' (sum_hours cs') initial_position_id_start
    else search_range cs total initial_position_id_start.

(** ** Oversized-client splitter *)

Definition part_label (i num_splits : Z) : string :=
  (" (Part " +:+ pretty (i + 1) +:+ "/" +:+ pretty num_splits +:+ ")")%string.

(** The [Client] built in iteration [i] of the inner loop of
    [handle_mandatory_splits] for the [k]-th client of the input. *)
Definition split_client_part (k : nat) (client : Client) (num_splits i : Z) : Client :=
  let base_hours_per_part := hours client / num_splits in
  let extra_hours := hours client mod num_splits in
  let base_days_per_part := days client / num_splits in
  let extra_days := days client mod num_splits in
  let part_hours := base_hours_per_part + (if i <? extra_hours then 1 else 0) in
  let part_days := base_days_per_part + (if i <? extra_days then 1 else 0) in
  let part_days :=
    if (0 <? part_hours) && (0 <? days client) && (part_days =? 0) then 1
    else part_days in
  {| client_obj := SplitPart k (Z.to_nat i);
     name := (name client +:+ part_label i num_splits)%string;
     hours := part_hours;
     days := part_days;
     needs_driver := needs_driver client;
     zip_code := zip_code client |}.

(** The positions appended by the inner loop for one oversized client;
    [current_pos_id] is its value when the loop starts. *)
Definition split_positions (k : nat) (client : Client) (current_pos_id : Z)
  : list CaregiverPosition :=
  let num_splits := ceil_div (hours client) 45 in
  (fun i => assign_client (new_position (current_pos_id + i))
                          (split_client_part k client num_splits i))
    <$> seqZ 0 num_splits.

(** The outer loop of [handle_mandatory_splits] from the [k]-th client on,
    with the three variables it updates. *)
Fixpoint split_loop (k : nat) (cs : list Client) (current_pos_id : Z)
    (positions_from_splits : list CaregiverPosition)
    (clients_not_needing_split : list Client)
  : list CaregiverPosition * list Client :=
  match cs with
  | [] => (positions_from_splits, clients_not_needing_split)
  | client :: rest =>
      if 45 <? hours client then
        split_loop (S k) rest (current_pos_id + ceil_div (hours client) 45)
          (positions_from_splits ++ split_positions k client current_pos_id)
          clients_not_needing_split
      else
        split_loop (S k) rest current_pos_id positions_from_splits
          (clients_not_needing_split ++ [client])
  end.

Definition handle_mandatory_splits (cs : list Client) (start_pos_id : Z)
  : list CaregiverPosition * list Client :=
  split_loop 0 cs start_pos_id [] [].

(** ** Merge pass and orchestrator *)

Definition post_optimization_merge (positions : list CaregiverPosition)
  : list CaregiverPosition := positions.

(** [max(p.position_id for p in positions)] of a non-empty list. *)
Definition max_position_id (positions : list CaregiverPosition) : Z :=
  match positions with
  | [] => 0
  | p :: ps => foldl Z.max (position_id p) (position_id <$> ps)
  end.

(** The provisional labels stamped on split positions in phase 1. *)
Definition stamp_types (pos : CaregiverPosition) : CaregiverPosition :=
  {| position_id := position_id pos;
     clients := clients pos;
     total_hours := total_hours pos;
     working_days := working_days pos;
     requires_driver := requires_driver pos;
     zip_codes := zip_codes pos;
     position_type :=
       Some (if total_hours pos <=? 24 then "Part-time"%string else "Full-time"%string);
     driver_type :=
       Some (if default false (requires_driver pos) then "Driver"%string
             else "Non-driver"%string) |}.

(** [sum(p.total_hours for p in positions)] *)
Definition sum_total_hours (positions : list CaregiverPosition) : Z :=
  foldr (fun p acc => total_hours p + acc) 0 positions.

(** The orchestrator returns its list of positions; the second component
    is what its own body prints as warnings and errors. *)
Definition optimize_with_strategic_enhancements (cs : list Client)
  : list CaregiverPosition * list diagnostic :=
  if negb (truthy cs) then ([], [])
  else
    let '(positions_from_splits, remaining_clients_for_main_algo) :=
      handle_mandatory_splits cs 1 in
    let next_pos_id :=
      if truthy positions_from_splits
      then max_position_id positions_from_splits + 1 else 1 in
    let positions_from_splits := stamp_types <$> positions_from_splits in
    let additional_positions :=
      if truthy remaining_clients_for_main_algo
      then constraint_satisfaction_algorithm remaining_clients_for_main_algo next_pos_id
      else [] in
    let out1 :=
      if truthy remaining_clients_for_main_algo && negb (truthy additional_positions)
      then [WarnNoSolutionForRemaining (length remaining_clients_for_main_algo)]
      else [] in
    let combined_solution_pre_merge := positions_from_splits ++ additional_positions in
    if negb (truthy combined_solution_pre_merge) then (([], out1 ++ [ErrNoPositionsFormed]))
    else
      let merged := post_optimization_merge combined_solution_pre_merge in
      match validate_and_return_solution merged 1 with
      | None => ([], out1 ++ [ErrFinalValidationFailed])
      | Some final_validated_solution =>
          let total_hours_in_solution := sum_total_hours final_validated_solution in
          let total_hours_original := sum_hours cs in
          (final_validated_solution,
           out1 ++
           (if negb (total_hours_in_solution =? total_hours_original)
            then [WarnHoursMismatch total_hours_original total_hours_in_solution]
            else []))
      end.

(** ** Front end: client records to schedule entries *)

(** The values a record can hold under the keys that are read.  Floats and
    containers are left out. *)
Inductive pyval : Type :=
  | PyNone
  | PyBool (b : bool)
  | PyInt (z : Z)
  | PyStr (s : string).

(** A record is a [dict]; only five keys are ever looked up, and [None]
    stands for an absent key.  The name, when present, is a string. *)
Record client_record : Type := mkRecord {
  rec_name : option string;
  rec_hours : option pyval;
  rec_days : option pyval;
  rec_needs_driver : option pyval;
  rec_zip_code : option pyval
}.

Inductive exn : Type := ValueError | TypeError.

(** A call either returns a value or raises. *)
Inductive outcome (A : Type) : Type :=
  | Returned (a : A)
  | Raised (e : exn).
Arguments Returned {A} a.
Arguments Raised {A} e.

(** [bool(v)] and [str(v)] *)
Definition py_bool (v : pyval) : bool :=
  match v with
  | PyNone => false
  | PyBool b => b
  | PyInt z => negb (z =? 0)
  | PyStr s => negb (bool_decide (s = ""%string))
  end.

Definition py_str (v : pyval) : string :=
  match v with
  | PyNone => "None"
  | PyBool true => "True"
  | PyBool false => "False"
  | PyInt z => pretty z
  | PyStr s => s
  end.

Record schedule_entry : Type := mkEntry {
  caregiver_id : string;
  entry_type : string;
  weekly_hours : Z;
  entry_working_days : Z;
  entry_clients : list string;
  entry_zip_codes : list string;
  driver_required : option bool
}.

(** [f"{x}"] of an optional string. *)
Definition fmt_opt (o : option string) : string := default "None"%string o.

(** [sorted(list(set(zs)))] *)
Definition sorted_unique (zs : list string) : list string :=
  merge_sort (fun a b => Is_true (String.leb a b))
             (elements (list_to_set zs : gset string)).

Definition to_entry (pos : CaregiverPosition) : schedule_entry :=
  {| caregiver_id := ("CG_" +:+ pretty (position_id pos))%string;
     entry_type := (fmt_opt (position_type pos) +:+ " " +:+ fmt_opt (driver_type pos))%string;
     weekly_hours := total_hours pos;
     entry_working_days := working_days pos;
     entry_clients := name <$> clients pos;
     entry_zip_codes := sorted_unique (zip_codes pos);
     driver_required := requires_driver pos |}.

Section FrontEnd.

(** The builtin [int] applied to a string: the literal it denotes, or
    [None] when the string is not an integer literal ([ValueError]). *)
Variable int_of_str : string -> option Z.

(** [int(v)] *)
Definition py_int (v : pyval) : outcome Z :=
  match v with
  | PyNone => Raised TypeError
  | PyBool b => Returned (if b then 1 else 0)
  | PyInt z => Returned z
  | PyStr s =>
      match int_of_str s with
      | Some z => Returned z
      | None => Raised ValueError
      end
  end.

(** The [Client(...)] call inside the [try]: the arguments are evaluated
    in order and the first exception leaves the call. *)
Definition build_client (i : nat) (data : client_record) : outcome Client :=
  let name_arg := default ("Client_" +:+ pretty (Z.of_nat i + 1))%string (rec_name data) in
  match py_int (default (PyInt 0) (rec_hours data)) with
  | Raised e => Raised e
  | Returned h =>
      match py_int (default (PyInt 0) (rec_days data)) with
      | Raised e => Raised e
      | Returned d =>
          Returned
            {| client_obj := Given i;
               name := name_arg;
               hours := h;
               days := d;
               needs_driver := py_bool (default (PyBool false) (rec_needs_driver data));
               zip_code := py_str (default (PyStr "00000") (rec_zip_code data)) |}
      end
  end.

(** The conversion loop of [generate_optimal_schedule] from record [i] on:
    [except ValueError] skips the record with a warning, any other
    exception leaves the function. *)
Fixpoint convert_records (i : nat) (client_data : list client_record)
    (acc : list Client) (out : list diagnostic)
  : outcome (list Client * list diagnostic) :=
  match client_data with
  | [] => Returned (acc, out)
  | data :: rest =>
      match build_client i data with
      | Returned client => convert_records (S i) rest (acc ++ [client]) out
      | Raised ValueError =>
          convert_records (S i) rest acc (out ++ [WarnSkippedRecord i])
      | Raised e => Raised e
      end
  end.

Definition generate_optimal_schedule (client_data : list client_record)
  : outcome (list schedule_entry * list diagnostic) :=
  match convert_records 0 client_data [] [] with
  | Raised e => Raised e
  | Returned (cs, out) =>
      if negb (truthy cs) then Returned ([], out)
      else
        let '(optimal_positions, out') := optimize_with_strategic_enhancements cs in
        if negb (truthy optimal_positions) then Returned ([], out ++ out')
        else Returned (to_entry <$> optimal_positions, out ++ out')
  end.

End FrontEnd.

(** ** Notions used by the statements *)

(** The states a position goes through during backtracking: it is created
    empty, receives a client it can accept, or has a client taken back. *)
Inductive reachable : CaregiverPosition -> Prop :=
  | reach_new pid : reachable (new_position pid)
  | reach_assign p c :
      reachable p -> can_accept_client p c = true -> reachable (assign_client p c)
  | reach_unassign p c :
      reachable p -> reachable (unassign_client p c).

(** A group of clients that may form one finalized position: populated,
    between 16 and 45 hours, at most 5 days, one driver requirement. *)
Definition valid_group (g : list Client) : Prop :=
  g ≠ [] ∧ 16 <= sum_hours g <= 45 ∧ sum_days g <= 5 ∧
  ∀ c d, c ∈ g → d ∈ g → needs_driver c = needs_driver d.

(** A fully valid, fully-assigning solution for [cs]: every client is in
    exactly one group and every group is valid.  Its position count is the
    number of groups. *)
Definition valid_assignment (cs : list Client) (groups : list (list Client)) : Prop :=
  concat groups ≡ₚ cs ∧ Forall valid_group groups.

(** What the validator guarantees of a position it returns under the
    identifier [new_id]. *)
Definition finalized (new_id : Z) (p : CaregiverPosition) : Prop :=
  position_id p = new_id ∧
  clients p ≠ [] ∧
  16 <= total_hours p <= 45 ∧
  working_days p <= 5 ∧
  requires_driver p = Some (any_needs_driver (clients p)) ∧
  position_type p =
    Some (if total_hours p <=? 24 then "Part-time"%string else "Full-time"%string) ∧
  ∃ b, requires_driver p = Some b ∧
       driver_type p = Some (if b then "Driver"%string else "Non-driver"%string).




(** The clients held by a list of positions, position by position. *)
Definition all_clients (ps : list CaregiverPosition) : list Client :=
  concat (clients <$> ps).

(** Two states of the same position objects in which every position holds
    the same clients, up to their order. *)
Definition same_clients (ps ps' : list CaregiverPosition) : Prop :=
  Forall2 (fun p p' => clients p ≡ₚ clients p') ps ps'.

(** What one level of the backtracking search guarantees for the clients
    [remaining] it has to place: the positions stay in reachable states; on
    success they hold the clients they held plus [remaining], on failure
    they hold the clients they held. *)
Definition backtrack_spec (remaining : list Client)
    (f : list CaregiverPosition → bool * list CaregiverPosition) : Prop :=
  ∀ ps found ps',
    Forall reachable ps → f ps = (found, ps') →
    Forall reachable ps' ∧
    if found then all_clients ps' ≡ₚ all_clients ps ++ remaining
    else same_clients ps ps'.

(** The order the difficulty sort establishes: [a] may stand before [b]. *)
Definition difficulty_le (a b : Client) : Prop :=
  score_le (difficulty_score a) (difficulty_score b) = true.

(** Driver-homogeneity: the flag of the position is the need of every one
    of its clients. *)
Definition homogeneous (p : CaregiverPosition) : Prop :=
  ∀ c, c ∈ clients p → requires_driver p = Some (needs_driver c).

(** A position with another identifier and everything else unchanged. *)
Definition with_position_id (new_id : Z) (p : CaregiverPosition) : CaregiverPosition :=
  {| position_id := new_id;
     clients := clients p;
     total_hours := total_hours p;
     working_days := working_days p;
     requires_driver := requires_driver p;
     zip_codes := zip_codes p;
     position_type := position_type p;
     driver_type := driver_type p |}.

(** [q] carries the clients, totals, zip codes and driver flag of [p]. *)
Definition same_content (p q : CaregiverPosition) : Prop :=
  clients q = clients p ∧ total_hours q = total_hours p ∧
  working_days q = working_days p ∧ zip_codes q = zip_codes p ∧
  requires_driver q = requires_driver p.

(** The order of the zip codes of an entry: Python's order on strings. *)
Definition string_le (a b : string) : Prop := Is_true (String.leb a b).

(** What [generate_optimal_schedule] guarantees of the [i]-th entry. *)
Definition entry_contract (i : nat) (e : schedule_entry) : Prop :=
  caregiver_id e = ("CG_" +:+ pretty (1 + Z.of_nat i))%string ∧
  16 <= weekly_hours e <= 45 ∧
  entry_working_days e <= 5 ∧
  entry_clients e ≠ [] ∧
  (∃ b, driver_required e = Some b ∧
        entry_type e =
          String.append
            (if weekly_hours e <=? 24 then "Part-time"%string else "Full-time"%string)
            (String.append " " (if b then "Driver"%string else "Non-driver"%string))) ∧
  NoDup (entry_zip_codes e) ∧
  Sorted string_le (entry_zip_codes e).

(** The invariant of the derived fields of a position. *)
Record position_inv (p : CaregiverPosition) : Prop := mkInv {
  inv_hours : total_hours p = sum_hours (clients p);
  inv_days : working_days p = sum_days (clients p);
  inv_driver :
    requires_driver p =
    if truthy (clients p) then Some (any_needs_driver (clients p)) else None;
  inv_zip_nodup : NoDup (zip_codes p);
  inv_zip_sound : ∀ z, z ∈ zip_codes p → z ∈ zip_code <$> clients p;
  inv_zip_complete :
    ∀ c, c ∈ clients p → zip_code c ≠ ""%string → zip_code c ∈ zip_codes p
}.

(** * Properties *)

(** ** Position operations *)

Lemma sum_hours_app l1 l2 : sum_hours (l1 ++ l2) = sum_hours l1 + sum_hours l2.
Proof. unfold sum_hours. induction l1 as [|c l1 IH]; simpl; lia. Qed.

Lemma sum_days_app l1 l2 : sum_days (l1 ++ l2) = sum_days l1 + sum_days l2.
Proof. unfold sum_days. induction l1 as [|c l1 IH]; simpl; lia. Qed.

Lemma any_needs_driver_app l1 l2 :
  any_needs_driver (l1 ++ l2) = any_needs_driver l1 || any_needs_driver l2.
Proof. apply existsb_app. Qed.

Lemma truthy_app_r {A} (l : list A) (x : A) : truthy (l ++ [x]) = true.
Proof. by destruct l. Qed.

Lemma truthy_false_nil {A} (l : list A) : truthy l = false ↔ l = [].
Proof. by destruct l. Qed.

Lemma list_remove_app_fresh c l : c ∉ l → list_remove c (l ++ [c]) = l.
Proof.
  induction l as [|d l IH]; intros Hc; simpl.
  - by rewrite bool_decide_eq_true_2.
  - apply not_elem_of_cons in Hc as [Hne Hc].
    rewrite bool_decide_eq_false_2 by congruence.
    by rewrite IH.
Qed.

Lemma list_remove_absent c l : c ∉ l → list_remove c l = l.
Proof.
  induction l as [|d l IH]; intros Hc; simpl; [done|].
  apply not_elem_of_cons in Hc as [Hne Hc].
  rewrite bool_decide_eq_false_2 by congruence.
  by rewrite IH.
Qed.

(** Removing a member gives back the list up to the order of its elements. *)
Lemma list_remove_perm c l : c ∈ l → c :: list_remove c l ≡ₚ l.
Proof.
  induction l as [|d l IH]; intros Hc; [by apply elem_of_nil in Hc|].
  simpl. case_bool_decide as Hd.
  - by subst.
  - apply elem_of_cons in Hc as [->|Hc]; [done|].
    rewrite Permutation_swap. by rewrite IH.
Qed.

Lemma sum_hours_perm l1 l2 : l1 ≡ₚ l2 → sum_hours l1 = sum_hours l2.
Proof. unfold sum_hours. induction 1; simpl; lia. Qed.

Lemma sum_days_perm l1 l2 : l1 ≡ₚ l2 → sum_days l1 = sum_days l2.
Proof. unfold sum_days. induction 1; simpl; lia. Qed.

Lemma sum_hours_remove c l :
  c ∈ l → sum_hours (list_remove c l) = sum_hours l - hours c.
Proof.
  intros Hc. rewrite <- (sum_hours_perm _ _ (list_remove_perm c l Hc)).
  unfold sum_hours; simpl; lia.
Qed.

Lemma sum_days_remove c l :
  c ∈ l → sum_days (list_remove c l) = sum_days l - days c.
Proof.
  intros Hc. rewrite <- (sum_days_perm _ _ (list_remove_perm c l Hc)).
  unfold sum_days; simpl; lia.
Qed.

Lemma elem_of_recomputed_zip_codes z cs :
  z ∈ recomputed_zip_codes cs ↔ z ≠ ""%string ∧ z ∈ zip_code <$> cs.
Proof.
  unfold recomputed_zip_codes, zip_set.
  rewrite elem_of_elements, elem_of_list_to_set, list_elem_of_filter. done.
Qed.

Lemma NoDup_recomputed_zip_codes cs : NoDup (recomputed_zip_codes cs).
Proof. unfold recomputed_zip_codes. apply NoDup_elements. Qed.

Lemma position_inv_new pid : position_inv (new_position pid).
Proof.
  split; simpl; try done.
  - constructor.
  - intros z Hz. by apply elem_of_nil in Hz.
Qed.

Lemma can_accept_driver p c b :
  can_accept_client p c = true → requires_driver p = Some b → needs_driver c = b.
Proof.
  unfold can_accept_client, driver_mismatch. intros Hacc Hrd. rewrite Hrd in Hacc.
  destruct (needs_driver c), b; simpl in Hacc; congruence.
Qed.

Lemma position_inv_assign p c :
  position_inv p → can_accept_client p c = true → position_inv (assign_client p c).
Proof.
  intros [Hh Hd Hrd Hnd Hsound Hcompl] Hacc. split; simpl.
  - rewrite sum_hours_app, Hh. unfold sum_hours; simpl; lia.
  - rewrite sum_days_app, Hd. unfold sum_days; simpl; lia.
  - rewrite truthy_app_r, any_needs_driver_app.
    destruct (truthy (clients p)) eqn:Ht.
    + rewrite Hrd. f_equal.
      change (any_needs_driver [c]) with (needs_driver c || false).
      rewrite (can_accept_driver p c _ Hacc Hrd).
      by destruct (any_needs_driver (clients p)).
    + apply truthy_false_nil in Ht. rewrite Ht. simpl.
      by rewrite orb_false_r.
  - case_bool_decide as Hz; [done|].
    apply NoDup_app. split_and!; [done| |apply NoDup_singleton].
    intros z Hz1 Hz2. apply list_elem_of_singleton in Hz2. by subst.
  - intros z Hz. rewrite fmap_app, elem_of_app. simpl.
    case_bool_decide as Hin.
    + left. by apply Hsound.
    + apply elem_of_app in Hz as [Hz|Hz]; [left; by apply Hsound|by right].
  - intros d Hd' Hne. apply elem_of_app in Hd' as [Hd'|Hd'].
    + case_bool_decide; [by apply Hcompl|].
      apply elem_of_app. left. by apply Hcompl.
    + apply list_elem_of_singleton in Hd'. subst d.
      case_bool_decide; [done|]. apply elem_of_app. right. by left.
Qed.

Lemma position_inv_unassign p c :
  position_inv p → position_inv (unassign_client p c).
Proof.
  intros [Hh Hd Hrd Hnd Hsound Hcompl]. unfold unassign_client.
  case_bool_decide as Hin; [|by split].
  split; simpl.
  - by rewrite sum_hours_remove, Hh.
  - by rewrite sum_days_remove, Hd.
  - done.
  - apply NoDup_recomputed_zip_codes.
  - intros z Hz. by apply elem_of_recomputed_zip_codes in Hz as [_ Hz].
  - intros d Hd' Hne. apply elem_of_recomputed_zip_codes. split; [done|].
    by apply list_elem_of_fmap_2.
Qed.

(** Every state of a position during backtracking satisfies the invariant
    of the derived fields. *)
Lemma reachable_inv p : reachable p → position_inv p.
Proof.
  induction 1 as [pid|p c _ IH Hacc|p c _ IH].
  - apply position_inv_new.
  - by apply position_inv_assign.
  - by apply position_inv_unassign.
Qed.

Lemma elem_of_assign_clients p c : c ∈ clients (assign_client p c).
Proof. simpl. apply elem_of_app. right. by left. Qed.

(** The shape of a position after a client was assigned and taken back,
    whatever the position was. *)
Lemma unassign_assign_fields p c :
  c ∉ clients p →
  unassign_client (assign_client p c) c =
  {| position_id := position_id p;
     clients := clients p;
     total_hours := total_hours p + hours c - hours c;
     working_days := working_days p + days c - days c;
     requires_driver :=
       if truthy (clients p) then Some (any_needs_driver (clients p)) else None;
     zip_codes := recomputed_zip_codes (clients p);
     position_type := position_type p;
     driver_type := driver_type p |}.
Proof.
  intros Hc. unfold unassign_client.
  rewrite bool_decide_eq_true_2 by apply elem_of_assign_clients.
  simpl. by rewrite list_remove_app_fresh.
Qed.

(** C9.  Taking back a client that is not in the position changes no field
    of the position: the operation returns the position as it was and only
    prints the not-found warning. *)
Theorem unassign_client_absent p c :
  c ∉ clients p →
  unassign_client p c = p ∧
  unassign_client_output p c = [WarnClientNotFound (name c) (position_id p)].
Proof.
  intros Hc. unfold unassign_client, unassign_client_output.
  by rewrite bool_decide_eq_false_2.
Qed.

Lemma unassign_client_absent_witness :
  let a := mkClient (Given 0) "A" 20 2 true "90210" in
  let b := mkClient (Given 1) "B" 10 1 true "90211" in
  let p := assign_client (new_position 3) a in
  (b ∉ clients p) ∧
  unassign_client p b = p ∧
  unassign_client_output p b = [WarnClientNotFound "B" 3].
Proof.
  intros a b p.
  assert (Hb : b ∉ clients p).
  { intros H. apply list_elem_of_singleton in H. discriminate H. }
  split; [exact Hb|]. exact (unassign_client_absent p b Hb).
Defined.

(** C6, as stated, fails: a position holding a client whose zip code is the
    empty string lists [""] among its zip codes; after another client is
    assigned and taken back, the zip codes are recomputed from the non-empty
    zip codes only and the list is empty. *)
Lemma assign_unassign_loses_empty_zip :
  let a := mkClient (Given 0) "A" 20 2 false "" in
  let b := mkClient (Given 1) "B" 10 1 false "10001" in
  let p := assign_client (new_position 1) a in
  reachable p ∧ can_accept_client p b = true ∧
  zip_codes p = [""%string] ∧
  zip_codes (unassign_client (assign_client p b) b) = [] ∧
  unassign_client (assign_client p b) b ≠ p.
Proof.
  intros a b p.
  assert (Hz : zip_codes (unassign_client (assign_client p b) b) = [])
    by (vm_compute; reflexivity).
  split_and!.
  - apply reach_assign; [apply reach_new|reflexivity].
  - reflexivity.
  - reflexivity.
  - exact Hz.
  - intros Heq. rewrite Heq in Hz. discriminate Hz.
Qed.

(** C6, amended.  For a position in any state reached during backtracking
    and a client object not already in it, assigning the client and taking
    it back restores the identifier, the clients, [total_hours],
    [working_days], [requires_driver] (unset for an empty position) and the
    labels exactly; [zip_codes] becomes the enumeration of the non-empty zip
    codes of the clients, which has the same members as before, possibly in
    another order, when no client of the position has an empty zip code. *)
Theorem assign_unassign_restores p c :
  reachable p → c ∉ clients p →
  let q := unassign_client (assign_client p c) c in
  position_id q = position_id p ∧
  clients q = clients p ∧
  total_hours q = total_hours p ∧
  working_days q = working_days p ∧
  requires_driver q = requires_driver p ∧
  position_type q = position_type p ∧
  driver_type q = driver_type p ∧
  zip_codes q = recomputed_zip_codes (clients p) ∧
  ((∀ d, d ∈ clients p → zip_code d ≠ ""%string) → zip_codes q ≡ₚ zip_codes p).
Proof.
  intros Hreach Hc q. subst q. rewrite (unassign_assign_fields p c Hc). simpl.
  destruct (reachable_inv p Hreach) as [Hh Hd Hrd Hnd Hsound Hcompl].
  split_and!; try done; try lia.
  intros Hzip. apply NoDup_Permutation.
  - apply NoDup_recomputed_zip_codes.
  - done.
  - intros z. rewrite elem_of_recomputed_zip_codes. split.
    + intros [Hne Hz]. apply list_elem_of_fmap in Hz as (d & -> & Hd').
      by apply Hcompl.
    + intros Hz. pose proof (Hsound z Hz) as Hz'. split; [|done].
      apply list_elem_of_fmap in Hz' as (d & -> & Hd'). by apply Hzip.
Qed.

Lemma assign_unassign_restores_witness :
  let a := mkClient (Given 0) "A" 20 2 false "10002" in
  let b := mkClient (Given 1) "B" 10 1 false "10001" in
  let p := assign_client (new_position 1) a in
  let q := unassign_client (assign_client p b) b in
  reachable p ∧ (b ∉ clients p) ∧
  clients q = clients p ∧ total_hours q = 20 ∧ working_days q = 2 ∧
  requires_driver q = Some false.
Proof.
  intros a b p q.
  assert (Hp : reachable p).
  { apply reach_assign; [apply reach_new|reflexivity]. }
  assert (Hb : b ∉ clients p).
  { intros H. apply list_elem_of_singleton in H. discriminate H. }
  destruct (assign_unassign_restores p b Hp Hb)
    as (_ & Hcl & Hh & Hd & Hrd & _).
  split; [exact Hp|]. split; [exact Hb|].
  split; [exact Hcl|]. split; [exact Hh|]. split; [exact Hd|exact Hrd].
Defined.

(** ** Validator / classifier *)

Lemma truthy_true_ne {A} (l : list A) : truthy l = true ↔ l ≠ [].
Proof. by destruct l. Qed.

Lemma position_ok_populated p :
  truthy (clients p) = true → position_ok p = true →
  16 <= total_hours p <= 45 ∧ working_days p <= 5 ∧
  requires_driver p = Some (any_needs_driver (clients p)).
Proof.
  unfold position_ok. intros ->. simpl.
  destruct (16 <=? total_hours p) eqn:H1; simpl; [|done].
  destruct (total_hours p <=? 45) eqn:H2; simpl; [|done].
  destruct (5 <? working_days p) eqn:H3; [done|].
  case_bool_decide as H4; simpl; [|done].
  intros _. split_and!; [lia|lia|lia|done].
Qed.

Lemma finalize_position_finalized new_id p :
  truthy (clients p) = true → position_ok p = true →
  finalized new_id (finalize_position new_id p).
Proof.
  intros Ht Hok.
  destruct (position_ok_populated p Ht Hok) as ((Hlo & Hhi) & Hd & Hrd).
  unfold finalized, finalize_position. simpl. rewrite Ht, Hrd, eqb_reflx. simpl.
  split_and!; try done.
  - by apply truthy_true_ne.
  - by eexists.
Qed.

(** The three ways [validate_and_return_solution] ends. *)
Lemma validate_cases positions start :
  let populated := List.filter (fun pos => truthy (clients pos)) positions in
  (populated = [] ∧ validate_and_return_solution positions start = Some []) ∨
  (populated ≠ [] ∧ all_constraints_satisfied populated = false ∧
   validate_and_return_solution positions start = None) ∨
  (populated ≠ [] ∧ all_constraints_satisfied populated = true ∧
   validate_and_return_solution positions start =
   Some (imap (fun i position => finalize_position (start + Z.of_nat i) position)
              populated)).
Proof.
  intros populated. unfold validate_and_return_solution. fold populated.
  destruct populated as [|p0 rest] eqn:Hpop.
  - left. split; [done|]. simpl.
    assert (Hex : existsb (fun pos => truthy (clients pos)) positions = false).
    { apply not_true_is_false. intros Hex.
      apply existsb_exists in Hex as (x & Hx & Htx).
      assert (Hin : In x populated) by (apply filter_In; done).
      rewrite Hpop in Hin. destruct Hin. }
    by rewrite Hex.
  - right. simpl negb at 1. simpl andb. cbv iota.
    destruct (all_constraints_satisfied (p0 :: rest)) eqn:Hall.
    + right. by split_and!.
    + left. by split_and!.
Qed.

Lemma validate_finalized positions start result i p :
  validate_and_return_solution positions start = Some result →
  result !! i = Some p → finalized (start + Z.of_nat i) p.
Proof.
  intros Hval Hi.
  destruct (validate_cases positions start) as [(_ & H)|[(_ & _ & H)|(_ & Hall & H)]];
    rewrite H in Hval; simplify_eq.
  rewrite list_lookup_imap in Hi.
  destruct (List.filter _ positions !! i) as [p0|] eqn:Hp0; simplify_eq/=.
    assert (Hin : In p0 (List.filter (fun pos => truthy (clients pos)) positions)).
    { apply list_elem_of_In, list_elem_of_lookup. eauto. }
    unfold all_constraints_satisfied in Hall.
    rewrite forallb_forall in Hall. pose proof (Hall p0 Hin) as Hok.
    apply filter_In in Hin as [_ Ht].
    by apply finalize_position_finalized.
Qed.

(** C8, as stated, fails: on a non-empty list whose only position is empty
    the validator returns the empty list, not the failure value. *)
Lemma validate_single_empty_position :
  validate_and_return_solution [new_position 1] 1 = Some [] ∧
  validate_and_return_solution [new_position 1] 1 ≠ None.
Proof. split; [reflexivity|discriminate]. Qed.

(** C8, amended.  On every list of positions in which every position is
    empty (the empty list included) the validator returns the empty list,
    which is the successful empty result; the failure value is not
    returned. *)
Theorem validate_all_empty positions start :
  Forall (fun pos => clients pos = []) positions →
  validate_and_return_solution positions start = Some [] ∧
  validate_and_return_solution positions start ≠ None.
Proof.
  intros Hall.
  assert (Hpop : List.filter (fun pos => truthy (clients pos)) positions = []).
  { induction Hall as [|pos l Hpos _ IH]; simpl; [done|]. by rewrite Hpos. }
  destruct (validate_cases positions start) as [(_ & H)|[(Hne & _)|(Hne & _)]];
    [|by rewrite Hpop in Hne..].
  by rewrite H.
Qed.

Lemma validate_all_empty_witness :
  Forall (fun pos => clients pos = []) [new_position 4; new_position 5] ∧
  validate_and_return_solution [new_position 4; new_position 5] 7 = Some [].
Proof.
  assert (H : Forall (fun pos => clients pos = []) [new_position 4; new_position 5]).
  { repeat constructor. }
  split; [exact H|].
  exact (proj1 (validate_all_empty [new_position 4; new_position 5] 7 H)).
Defined.

Lemma forallb_false_exists {A} (f : A → bool) (l : list A) :
  forallb f l = false → ∃ x, In x l ∧ f x = false.
Proof.
  induction l as [|x l IH]; simpl; [done|].
  destruct (f x) eqn:Hx; simpl.
  - intros H. destruct (IH H) as (y & Hy & Hfy). eauto.
  - eauto.
Qed.

(** The validator fails exactly when a populated position breaks a rule. *)
Lemma validate_None_iff positions start :
  validate_and_return_solution positions start = None ↔
  ∃ pos, pos ∈ positions ∧ clients pos ≠ [] ∧ position_ok pos = false.
Proof.
  destruct (validate_cases positions start)
    as [(Hpop & H)|[(_ & Hall & H)|(_ & Hall & H)]]; rewrite H; split; try done.
  - intros (pos & Hin & Hne & _). exfalso.
    assert (Hin' : In pos (List.filter (fun q => truthy (clients q)) positions)).
    { apply filter_In. split; [by apply list_elem_of_In|by apply truthy_true_ne]. }
    rewrite Hpop in Hin'. destruct Hin'.
  - intros _. unfold all_constraints_satisfied in Hall.
    apply forallb_false_exists in Hall as (pos & Hin & Hok).
    apply filter_In in Hin as [Hin Ht]. exists pos.
    split_and!; [by apply list_elem_of_In|by apply truthy_true_ne|done].
  - intros (pos & Hin & Hne & Hok). exfalso.
    unfold all_constraints_satisfied in Hall. rewrite forallb_forall in Hall.
    rewrite Hall in Hok; [done|].
    apply filter_In. split; [by apply list_elem_of_In|by apply truthy_true_ne].
Qed.

(** ** Position-count search: where its results come from *)

Lemma attempt_assignment_validated cs target start sol :
  attempt_assignment cs target start = Some sol →
  sol = [] ∨ ∃ raw, validate_and_return_solution raw start = Some sol.
Proof.
  unfold attempt_assignment. intros H.
  destruct (truthy cs); simpl in H; [|left; congruence].
  destruct (target =? 0); [done|].
  destruct (backtrack_assignment _ _ 0) as [found raw].
  destruct (found && truthy raw); [|done].
  destruct (validate_and_return_solution raw start) as [v|] eqn:Hv; [|done].
  destruct (truthy v); [|done].
  case_bool_decide; [|done].
  right. exists raw. congruence.
Qed.

Lemma search_targets_validated cs start targets :
  search_targets cs start targets = [] ∨
  ∃ raw, validate_and_return_solution raw start = Some (search_targets cs start targets).
Proof.
  induction targets as [|t later IH]; simpl; [by left|].
  destruct (attempt_assignment cs t start) as [sol|] eqn:Hatt; [|done].
  destruct (truthy sol) eqn:Ht; [|done].
  case_bool_decide; [|done].
  destruct (attempt_assignment_validated _ _ _ _ Hatt) as [->|Hraw]; [done|by right].
Qed.

Lemma search_validated cs start :
  constraint_satisfaction_algorithm cs start = [] ∨
  ∃ raw, validate_and_return_solution raw start =
         Some (constraint_satisfaction_algorithm cs start).
Proof.
  unfold constraint_satisfaction_algorithm, search_range.
  destruct (truthy cs); simpl; [|by left].
  destruct (sum_hours cs =? 0).
  - destruct (truthy (positive_hours cs)); simpl; [|by left].
    apply search_targets_validated.
  - apply search_targets_validated.
Qed.

Lemma optimize_validated cs :
  (optimize_with_strategic_enhancements cs).1 = [] ∨
  ∃ merged, validate_and_return_solution merged 1 =
            Some (optimize_with_strategic_enhancements cs).1.
Proof.
  unfold optimize_with_strategic_enhancements.
  destruct (truthy cs); simpl; [|by left].
  destruct (handle_mandatory_splits cs 1) as [splits remaining].
  match goal with
  | |- context [negb (truthy ?l)] => destruct (truthy l); simpl; [|by left]
  end.
  match goal with
  | |- context [validate_and_return_solution ?m 1] =>
      destruct (validate_and_return_solution m 1) as [final|] eqn:Hv; simpl;
      [right; by exists m|by left]
  end.
Qed.

(** C2.  Every position returned by the validator, by the position-count
    search and by the orchestrator has clients, between 16 and 45 total
    hours, at most 5 working days, a driver requirement equal to "some
    assigned client needs a driver", the tier [Part-time] up to 24 hours and
    [Full-time] above, the tag [Driver] exactly when a driver is required,
    and the identifier [start + i] for the [i]-th returned position, where
    [start] is the offset supplied by the caller (1 in the orchestrator). *)
Theorem returned_positions_finalized :
  (∀ positions start result i p,
     validate_and_return_solution positions start = Some result →
     result !! i = Some p → finalized (start + Z.of_nat i) p) ∧
  (∀ cs start i p,
     constraint_satisfaction_algorithm cs start !! i = Some p →
     finalized (start + Z.of_nat i) p) ∧
  (∀ cs i p,
     (optimize_with_strategic_enhancements cs).1 !! i = Some p →
     finalized (1 + Z.of_nat i) p).
Proof.
  split_and!.
  - apply validate_finalized.
  - intros cs start i p Hi.
    destruct (search_validated cs start) as [Hnil|[raw Hraw]].
    + by rewrite Hnil in Hi.
    + by apply (validate_finalized raw start _ i p Hraw).
  - intros cs i p Hi.
    destruct (optimize_validated cs) as [Hnil|[merged Hm]].
    + by rewrite Hnil in Hi.
    + by apply (validate_finalized merged 1 _ i p Hm).
Qed.

Lemma returned_positions_finalized_witness :
  let cs := [mkClient (Given 0) "O" 48 5 true "90210";
             mkClient (Given 1) "P" 20 2 false "90211"] in
  ∃ p, (optimize_with_strategic_enhancements cs).1 !! 2%nat = Some p ∧
       clients p = [mkClient (Given 1) "P" 20 2 false "90211"] ∧
       finalized 3 p.
Proof.
  intros cs.
  destruct ((optimize_with_strategic_enhancements cs).1 !! 2%nat) as [p|] eqn:Hp.
  - exists p. split; [reflexivity|].
    pose proof (proj2 (proj2 returned_positions_finalized) cs 2%nat p Hp) as Hfin.
    split; [|exact Hfin].
    vm_compute in Hp. injection Hp as <-. reflexivity.
  - vm_compute in Hp. discriminate Hp.
Defined.

(** ** Oversized-client splitter *)

Lemma ceil_div_45_bounds h :
  45 < h → 2 <= ceil_div h 45 ∧ 45 * (ceil_div h 45 - 1) < h <= 45 * ceil_div h 45.
Proof.
  intros Hh. unfold ceil_div.
  pose proof (Z.div_mod (- h) 45 ltac:(lia)) as Hdm.
  pose proof (Z.mod_pos_bound (- h) 45 ltac:(lia)) as Hmod.
  lia.
Qed.

Lemma length_split_positions k client id :
  45 < hours client →
  Z.of_nat (length (split_positions k client id)) = ceil_div (hours client) 45.
Proof.
  intros Hh. unfold split_positions. rewrite length_fmap, length_seqZ.
  pose proof (ceil_div_45_bounds _ Hh). lia.
Qed.

Lemma split_loop_acc k cs id accp accc :
  split_loop k cs id accp accc =
  (accp ++ (split_loop k cs id [] []).1, accc ++ (split_loop k cs id [] []).2).
Proof.
  revert k id accp accc. induction cs as [|c rest IH]; intros k id accp accc; simpl.
  - by rewrite !app_nil_r.
  - destruct (45 <? hours c).
    + rewrite (IH _ _ (accp ++ _)), (IH _ _ (split_positions k c id)). simpl.
      by rewrite app_assoc.
    + rewrite (IH _ _ accp (accc ++ [c])), (IH _ _ [] [c]). simpl.
      by rewrite <- app_assoc.
Qed.

Lemma split_loop_kept k cs id :
  (split_loop k cs id [] []).2 = List.filter (fun c => hours c <=? 45) cs.
Proof.
  revert k id. induction cs as [|c rest IH]; intros k id; simpl; [done|].
  destruct (45 <? hours c) eqn:Hc; rewrite split_loop_acc; simpl.
  - rewrite (proj2 (Z.leb_gt _ _)) by lia. apply IH.
  - rewrite (proj2 (Z.leb_le _ _)) by lia. by rewrite IH.
Qed.


Lemma split_positions_lookup k client id i :
  0 <= i < ceil_div (hours client) 45 →
  split_positions k client id !! Z.to_nat i =
  Some (assign_client (new_position (id + i))
          (split_client_part k client (ceil_div (hours client) 45) i)).
Proof.
  intros Hi. unfold split_positions.
  rewrite list_lookup_fmap, lookup_seqZ_lt by lia. simpl.
  by rewrite Z2Nat.id by lia.
Qed.


Lemma split_loop_cons_oversized k c rest id :
  45 < hours c →
  (split_loop k (c :: rest) id [] []).1 =
  split_positions k c id ++
  (split_loop (S k) rest (id + ceil_div (hours c) 45) [] []).1.
Proof.
  intros Hc. simpl. rewrite (proj2 (Z.ltb_lt _ _) Hc).
  by rewrite split_loop_acc.
Qed.






Lemma split_part_hours_le k client i :
  45 < hours client → 0 <= i →
  hours (split_client_part k client (ceil_div (hours client) 45) i) <= 45.
Proof.
  intros Hh Hi. simpl.
  destruct (ceil_div_45_bounds _ Hh) as (Hn & _ & Hup).
  set (n := ceil_div (hours client) 45) in *.
  pose proof (Z.div_mod (hours client) n ltac:(lia)) as Hdm.
  pose proof (Z.mod_pos_bound (hours client) n ltac:(lia)) as Hmod.
  destruct (Z.ltb_spec i (hours client `mod` n)); nia.
Qed.




Lemma sum_total_hours_app l1 l2 :
  sum_total_hours (l1 ++ l2) = sum_total_hours l1 + sum_total_hours l2.
Proof. unfold sum_total_hours. induction l1 as [|p l1 IH]; simpl; lia. Qed.

Lemma sum_total_hours_consistent ps :
  Forall (fun pos => total_hours pos = sum_hours (clients pos)) ps →
  sum_total_hours ps = sum_hours (concat (clients <$> ps)).
Proof.
  induction 1 as [|p ps Hp _ IH]; csimpl; [done|].
  rewrite sum_hours_app, <- IH, <- Hp. done.
Qed.




(** ** Backtracking assignor *)

Lemma same_clients_refl ps : same_clients ps ps.
Proof. unfold same_clients. induction ps; by constructor. Qed.

Lemma same_clients_trans ps1 ps2 ps3 :
  same_clients ps1 ps2 → same_clients ps2 ps3 → same_clients ps1 ps3.
Proof.
  unfold same_clients. intros H12. revert ps3.
  induction H12 as [|p1 p2 l1 l2 Hp _ IH]; intros ps3 H23.
  - by apply Forall2_nil_inv_l in H23 as ->.
  - apply Forall2_cons_inv_l in H23 as (p3 & l3 & Hp' & Hl & ->).
    constructor; [by rewrite Hp|by apply IH].
Qed.

Lemma same_clients_all ps ps' :
  same_clients ps ps' → all_clients ps ≡ₚ all_clients ps'.
Proof.
  unfold all_clients. induction 1 as [|p p' l l' Hp _ IH]; csimpl; [done|].
  by rewrite Hp, IH.
Qed.

Lemma all_clients_insert ps j p q :
  ps !! j = Some p →
  all_clients (<[j := q]> ps) ++ clients p ≡ₚ all_clients ps ++ clients q.
Proof.
  unfold all_clients. revert j. induction ps as [|p0 ps IH]; intros j Hj; [done|].
  destruct j as [|j]; csimpl in *.
  - simplify_eq. rewrite <- !app_assoc.
    by rewrite (Permutation_app_comm (concat _) (clients p)),
               (Permutation_app_comm (concat _) (clients q)),
               (Permutation_app_swap_app (clients q)).
  - rewrite <- !app_assoc. by rewrite (IH j Hj).
Qed.

Lemma all_clients_assign ps j p c :
  ps !! j = Some p →
  all_clients (<[j := assign_client p c]> ps) ≡ₚ c :: all_clients ps.
Proof.
  intros Hj. apply (Permutation_app_inv_r (clients p)).
  rewrite (all_clients_insert ps j p _ Hj). simpl.
  rewrite (Permutation_app_comm (clients p) [c]). simpl.
  by rewrite <- Permutation_middle, (Permutation_app_comm (all_clients ps)).
Qed.

Lemma unassign_clients_perm p1 l c :
  clients p1 ≡ₚ l ++ [c] → clients (unassign_client p1 c) ≡ₚ l.
Proof.
  intros Hp1. unfold unassign_client.
  assert (Hin : c ∈ clients p1).
  { rewrite Hp1. apply elem_of_app. right. by left. }
  rewrite bool_decide_eq_true_2 by done. simpl.
  apply (Permutation_cons_inv (a := c)).
  rewrite (list_remove_perm c _ Hin), Hp1.
  by rewrite Permutation_app_comm.
Qed.

(** The loop over the positions for one client, given what the recursive
    call guarantees for the following clients; [ps0] is the state in which
    the loop was entered. *)
Lemma try_positions_spec next c rest :
  backtrack_spec rest next →
  ∀ js ps0 ps found ps',
    Forall reachable ps → same_clients ps0 ps →
    try_positions next c js ps = (found, ps') →
    Forall reachable ps' ∧
    if found then all_clients ps' ≡ₚ all_clients ps0 ++ c :: rest
    else same_clients ps0 ps'.
Proof.
  intros Hnext. induction js as [|j js IH]; intros ps0 ps found ps' Hreach Hsame Htry.
  - simpl in Htry. by simplify_eq.
  - simpl in Htry.
    destruct (ps !! j) as [p|] eqn:Hj; [|by eapply IH].
    destruct (can_accept_client p c) eqn:Hacc; [|by eapply IH].
    destruct (next (<[j:=assign_client p c]> ps)) as [f1 ps1] eqn:Hcall.
    assert (Hreach1 : Forall reachable (<[j:=assign_client p c]> ps)).
    { apply Forall_insert; [done|]. apply reach_assign; [|done].
      by eapply Forall_lookup_1. }
    destruct (Hnext _ _ _ Hreach1 Hcall) as [Hr1 Hres].
    destruct f1.
    + simplify_eq. split; [done|].
      rewrite Hres, (all_clients_assign ps j p c Hj), (same_clients_all ps0 ps Hsame).
      simpl. apply Permutation_middle.
    + assert (Hlt : (j < length ps)%nat) by by eapply lookup_lt_Some.
      destruct (Forall2_lookup_l _ _ _ j (assign_client p c) Hres)
        as (p1 & Hp1 & Hcl); [by apply list_lookup_insert_eq|].
      rewrite Hp1 in Htry. eapply IH; [| |exact Htry].
      * apply Forall_insert; [done|]. apply reach_unassign.
        by eapply Forall_lookup_1.
      * apply (same_clients_trans _ ps); [done|].
        rewrite <- (list_insert_id ps j p Hj) at 1.
        rewrite <- (list_insert_insert_eq ps j p (assign_client p c)).
        apply Forall2_insert; [done|].
        symmetry. apply unassign_clients_perm. by rewrite <- Hcl.
Qed.

Lemma backtrack_from_spec remaining : backtrack_spec remaining (backtrack_from remaining).
Proof.
  induction remaining as [|c rest IH]; intros ps found ps' Hreach Hrun.
  - simpl in Hrun. simplify_eq. split; [done|]. by rewrite app_nil_r.
  - simpl in Hrun.
    exact (try_positions_spec _ c rest IH _ ps ps found ps' Hreach
             (same_clients_refl ps) Hrun).
Qed.

(** The sort only reorders the clients. *)
Lemma insert_by_score_perm c l : insert_by_score c l ≡ₚ c :: l.
Proof.
  induction l as [|d l IH]; cbn [insert_by_score]; [done|].
  destruct (score_le (difficulty_score c) (difficulty_score d)); [done|].
  by rewrite IH, Permutation_swap.
Qed.

Lemma sort_by_assignment_difficulty_perm cs : sort_by_assignment_difficulty cs ≡ₚ cs.
Proof.
  unfold sort_by_assignment_difficulty.
  induction cs as [|c cs IH]; simpl; [done|].
  by rewrite insert_by_score_perm, IH.
Qed.

(** ** What a successful search returns *)

Lemma all_clients_populated l :
  all_clients (List.filter (fun pos => truthy (clients pos)) l) = all_clients l.
Proof.
  unfold all_clients. induction l as [|p l IH]; [done|].
  cbn [List.filter]. destruct (clients p) as [|c cl] eqn:Hp; csimpl.
  - by rewrite Hp.
  - by rewrite Hp, IH.
Qed.

Lemma all_clients_finalized start l :
  all_clients (imap (fun i position => finalize_position (start + Z.of_nat i) position) l)
  = all_clients l.
Proof.
  unfold all_clients. rewrite fmap_imap.
  rewrite (imap_ext _ (const clients)) by done.
  by rewrite imap_const.
Qed.

Lemma validate_keeps_clients raw start v :
  validate_and_return_solution raw start = Some v → all_clients v = all_clients raw.
Proof.
  intros Hv.
  destruct (validate_cases raw start) as [(Hpop & H)|[(_ & _ & H)|(_ & _ & H)]];
    rewrite H in Hv; simplify_eq.
  - by rewrite <- (all_clients_populated raw), Hpop.
  - by rewrite all_clients_finalized, all_clients_populated.
Qed.

Lemma validate_keeps_consistency raw start v :
  Forall (fun pos => total_hours pos = sum_hours (clients pos)) raw →
  validate_and_return_solution raw start = Some v →
  Forall (fun pos => total_hours pos = sum_hours (clients pos)) v.
Proof.
  intros Hraw Hv.
  destruct (validate_cases raw start) as [(Hpop & H)|[(_ & _ & H)|(_ & _ & H)]];
    rewrite H in Hv; simplify_eq; [done|].
  apply Forall_lookup. intros i p Hi.
  rewrite list_lookup_imap in Hi.
  destruct (List.filter _ raw !! i) as [p0|] eqn:Hp0; simplify_eq/=.
  assert (Hin : In p0 (List.filter (fun pos => truthy (clients pos)) raw)).
  { apply list_elem_of_In, list_elem_of_lookup. eauto. }
  apply filter_In in Hin as [Hin _]. apply list_elem_of_In in Hin.
  by apply (proj1 (Forall_forall _ _) Hraw).
Qed.

Lemma all_clients_new_positions start target :
  all_clients ((fun i => new_position (start + i)) <$> seqZ 0 target) = [].
Proof.
  unfold all_clients. rewrite <- list_fmap_compose.
  induction (seqZ 0 target) as [|i l IH]; csimpl; [done|by rewrite IH].
Qed.

Lemma reachable_consistent ps :
  Forall reachable ps →
  Forall (fun pos => total_hours pos = sum_hours (clients pos)) ps.
Proof.
  intros Hps. eapply Forall_impl; [exact Hps|].
  intros p Hp. by destruct (reachable_inv p Hp).
Qed.

(** A non-empty result of [attempt_assignment] holds exactly the clients it
    was given, and each of its positions totals the hours of its clients. *)
Lemma attempt_assignment_complete cs target start sol :
  attempt_assignment cs target start = Some sol → sol ≠ [] →
  all_clients sol ≡ₚ cs ∧
  Forall (fun pos => total_hours pos = sum_hours (clients pos)) sol.
Proof.
  unfold attempt_assignment, backtrack_assignment. intros H Hne.
  destruct (truthy cs); simpl in H; [|congruence].
  destruct (target =? 0); [done|]. rewrite drop_0 in H.
  destruct (backtrack_from _ _) as [found raw] eqn:Hbt.
  destruct found; simpl in H; [|done].
  destruct (truthy raw); [|done].
  destruct (validate_and_return_solution raw start) as [v|] eqn:Hv; [|done].
  destruct (truthy v); [|done].
  case_bool_decide; [|done]. simplify_eq.
  assert (Hnew : Forall reachable
                   ((fun i => new_position (start + i)) <$> seqZ 0 target)).
  { apply Forall_fmap, Forall_forall. intros i _. apply reach_new. }
  destruct (backtrack_from_spec _ _ _ _ Hnew Hbt) as [Hreach Hperm].
  split.
  - rewrite (validate_keeps_clients _ _ _ Hv), Hperm, all_clients_new_positions.
    simpl. apply sort_by_assignment_difficulty_perm.
  - eapply validate_keeps_consistency; [|done]. by apply reachable_consistent.
Qed.

Lemma search_targets_complete cs start targets :
  search_targets cs start targets ≠ [] →
  all_clients (search_targets cs start targets) ≡ₚ cs ∧
  Forall (fun pos => total_hours pos = sum_hours (clients pos))
         (search_targets cs start targets).
Proof.
  induction targets as [|t later IH]; simpl; [done|].
  destruct (attempt_assignment cs t start) as [sol|] eqn:Hatt; [|done].
  destruct (truthy sol) eqn:Ht; [|done].
  case_bool_decide; [|done].
  intros Hne. by eapply attempt_assignment_complete.
Qed.

(** The clients the search works on: those of positive hours when the
    total is 0, all of them otherwise. *)
Lemma search_complete cs start :
  constraint_satisfaction_algorithm cs start ≠ [] →
  let searched := if sum_hours cs =? 0 then positive_hours cs else cs in
  all_clients (constraint_satisfaction_algorithm cs start) ≡ₚ searched ∧
  Forall (fun pos => total_hours pos = sum_hours (clients pos))
         (constraint_satisfaction_algorithm cs start).
Proof.
  unfold constraint_satisfaction_algorithm, search_range.
  destruct (truthy cs); simpl; [|done].
  destruct (sum_hours cs =? 0).
  - destruct (truthy (positive_hours cs)); simpl; [|done].
    apply search_targets_complete.
  - apply search_targets_complete.
Qed.

(** ** Zero-hour clients *)

Lemma sum_hours_all_zero cs : Forall (fun c => hours c = 0) cs → sum_hours cs = 0.
Proof. unfold sum_hours. induction 1 as [|c l Hc _ IH]; simpl; lia. Qed.

Lemma positive_hours_all_zero cs :
  Forall (fun c => hours c = 0) cs → positive_hours cs = [].
Proof.
  unfold positive_hours. induction 1 as [|c l Hc _ IH]; simpl; [done|].
  by rewrite Hc.
Qed.

(** C4, as stated, fails: when the hours do not sum to 0 nothing is
    filtered; a zero-hour client is counted in [practical_max] and ends up
    in the returned position. *)
Lemma zero_hour_client_is_scheduled :
  let a := mkClient (Given 0) "A" 20 2 false "10001" in
  let b := mkClient (Given 1) "B" 0 0 false "10002" in
  hours b = 0 ∧
  practical_max [a; b] = 2 ∧
  ∃ pos, constraint_satisfaction_algorithm [a; b] 1 = [pos] ∧ clients pos = [a; b].
Proof.
  intros a b. split; [reflexivity|]. split; [reflexivity|].
  eexists. split; [vm_compute; reflexivity|reflexivity].
Qed.

(** C4, amended.  The search filters only when the hours of the clients sum
    to 0: it then goes on with the clients of positive hours, returns the
    empty schedule when none is left, and returns no position holding a
    client without positive hours; in particular the result is empty when
    every client has 0 hours.  When the hours do not sum to 0 no client is
    dropped and the bounds are computed from all the clients. *)
Theorem zero_hour_filtering cs start :
  (sum_hours cs = 0 →
     constraint_satisfaction_algorithm cs start =
       (if truthy (positive_hours cs)
        then search_range (positive_hours cs) (sum_hours (positive_hours cs)) start
        else []) ∧
     ∀ c, c ∈ all_clients (constraint_satisfaction_algorithm cs start) → 0 < hours c) ∧
  (Forall (fun c => hours c = 0) cs → constraint_satisfaction_algorithm cs start = []) ∧
  (sum_hours cs ≠ 0 →
     constraint_satisfaction_algorithm cs start = search_range cs (sum_hours cs) start).
Proof.
  assert (Hzero : sum_hours cs = 0 →
    constraint_satisfaction_algorithm cs start =
      (if truthy (positive_hours cs)
       then search_range (positive_hours cs) (sum_hours (positive_hours cs)) start
       else [])).
  { intros Hsum. unfold constraint_satisfaction_algorithm.
    destruct cs as [|c0 cs']; [done|]. cbn [truthy negb].
    rewrite Hsum. cbn [Z.eqb]. by destruct (truthy (positive_hours (c0 :: cs'))). }
  split_and!.
  - intros Hsum. split; [by apply Hzero|].
    intros c Hc.
    destruct (decide (constraint_satisfaction_algorithm cs start = [])) as [Hnil|Hne].
    { rewrite Hnil in Hc. by apply elem_of_nil in Hc. }
    destruct (search_complete cs start Hne) as [Hperm _].
    rewrite Hsum in Hperm. cbn [Z.eqb] in Hperm. rewrite Hperm in Hc.
    apply list_elem_of_In, filter_In in Hc as [_ Hpos]. lia.
  - intros Hall. rewrite Hzero by by apply sum_hours_all_zero.
    by rewrite positive_hours_all_zero.
  - intros Hsum. unfold constraint_satisfaction_algorithm.
    destruct cs as [|c0 cs']; [done|]. cbn [truthy negb].
    by rewrite (proj2 (Z.eqb_neq _ _) Hsum).
Qed.

Lemma zero_hour_filtering_witness :
  let l := mkClient (Given 0) "Client L" 0 3 true "90210" in
  let m := mkClient (Given 1) "Client M" 0 2 true "90210" in
  Forall (fun c => hours c = 0) [l; m] ∧
  constraint_satisfaction_algorithm [l; m] 1 = [].
Proof.
  intros l m.
  assert (H : Forall (fun c => hours c = 0) [l; m]) by (repeat constructor).
  split; [exact H|].
  exact (proj1 (proj2 (zero_hour_filtering [l; m] 1)) H).
Defined.

(** C1, evaluated where the code departs from the claim.  Three non-driver
    clients of 30, 15 and 15 hours: the range of counts is 2 to 3, and two
    positions, one for the first client and one for the other two, are a
    fully valid, fully-assigning solution that the validator accepts.  For
    the count 2 the backtracking search stops at the first complete
    placement (30 + 15 hours and 15 hours), which fails the 16-hour floor;
    the count is given up, the count 3 fails in the same way, and the
    search returns no position at all. *)
Theorem search_misses_feasible_count :
  let a := mkClient (Given 0) "A" 30 1 false "10001" in
  let b := mkClient (Given 1) "B" 15 1 false "10001" in
  let c := mkClient (Given 2) "C" 15 1 false "10001" in
  let p1 := assign_client (new_position 1) a in
  let p2 := assign_client (assign_client (new_position 2) b) c in
  theoretical_min [a; b; c] (sum_hours [a; b; c]) = 2 ∧
  practical_max [a; b; c] = 3 ∧
  valid_assignment [a; b; c] [[a]; [b; c]] ∧
  (∃ sol, validate_and_return_solution [p1; p2] 1 = Some sol ∧
          length sol = 2%nat ∧ assigned_names sol = client_names [a; b; c]) ∧
  attempt_assignment [a; b; c] 2 1 = None ∧
  attempt_assignment [a; b; c] 3 1 = None ∧
  constraint_satisfaction_algorithm [a; b; c] 1 = [].
Proof.
  intros a b c p1 p2.
  assert (Hgroup : ∀ g, Forall (fun x => needs_driver x = false) g →
                        ∀ x y, x ∈ g → y ∈ g → needs_driver x = needs_driver y).
  { intros g Hg x y Hx Hy. rewrite Forall_forall in Hg.
    by rewrite (Hg x Hx), (Hg y Hy). }
  split_and!.
  - reflexivity.
  - reflexivity.
  - split; [reflexivity|].
    repeat constructor; try discriminate; try (apply Hgroup; by repeat constructor).
  - eexists. split; [vm_compute; reflexivity|]. split; [reflexivity|].
    by vm_compute.
  - by vm_compute.
  - by vm_compute.
  - by vm_compute.
Qed.

(** ** Orchestrator: hours of the result against hours of the input *)



Lemma all_clients_app l1 l2 : all_clients (l1 ++ l2) = all_clients l1 ++ all_clients l2.
Proof. unfold all_clients. by rewrite fmap_app, concat_app. Qed.

Lemma split_loop_cons_small k c rest id :
  hours c <= 45 →
  (split_loop k (c :: rest) id [] []).1 = (split_loop (S k) rest id [] []).1.
Proof.
  intros Hc. simpl. rewrite (proj2 (Z.ltb_ge _ _) Hc).
  by rewrite split_loop_acc.
Qed.


Lemma all_clients_stamped l : all_clients (stamp_types <$> l) = all_clients l.
Proof. unfold all_clients. by rewrite <- list_fmap_compose. Qed.


(** The two components of the orchestrator's outcome, case by case. *)
Lemma optimize_cases cs :
  let splits := stamp_types <$> (handle_mandatory_splits cs 1).1 in
  let remaining := (handle_mandatory_splits cs 1).2 in
  let next_pos_id :=
    if truthy (handle_mandatory_splits cs 1).1
    then max_position_id (handle_mandatory_splits cs 1).1 + 1 else 1 in
  let additional :=
    if truthy remaining then constraint_satisfaction_algorithm remaining next_pos_id
    else [] in
  let out1 :=
    if truthy remaining && negb (truthy additional)
    then [WarnNoSolutionForRemaining (length remaining)] else [] in
  (optimize_with_strategic_enhancements cs).1 = [] ∨
  ∃ final,
    validate_and_return_solution (splits ++ additional) 1 = Some final ∧
    optimize_with_strategic_enhancements cs =
      (final,
       out1 ++
       (if negb (sum_total_hours final =? sum_hours cs)
        then [WarnHoursMismatch (sum_hours cs) (sum_total_hours final)] else [])).
Proof.
  intros splits remaining next_pos_id additional out1.
  subst splits remaining next_pos_id additional out1.
  unfold optimize_with_strategic_enhancements.
  destruct (truthy cs); simpl; [|by left].
  destruct (handle_mandatory_splits cs 1) as [splits remaining]. simpl.
  match goal with
  | |- context [negb (truthy ?l)] => destruct (truthy l); simpl; [|by left]
  end.
  unfold post_optimization_merge.
  match goal with
  | |- context [validate_and_return_solution ?m 1] =>
      destruct (validate_and_return_solution m 1) as [final|] eqn:Hv; simpl;
      [right; by exists final|by left]
  end.
Qed.




(** ** Front end *)

Lemma generate_optimal_schedule_empty int_of_str :
  generate_optimal_schedule int_of_str [] = Returned ([], []).
Proof. reflexivity. Qed.

(** Records whose conversion raises [ValueError] are skipped one by one. *)
Lemma convert_records_all_skipped int_of_str records :
  ∀ i acc out,
    (∀ j data, records !! j = Some data →
               build_client int_of_str (i + j) data = Raised ValueError) →
    ∃ out', convert_records int_of_str i records acc out = Returned (acc, out ++ out') ∧
            length out' = length records.
Proof.
  induction records as [|data rest IH]; intros i acc out Hall.
  - exists []. by rewrite app_nil_r.
  - cbn [convert_records].
    pose proof (Hall 0%nat data eq_refl) as H0. rewrite Nat.add_0_r in H0. rewrite H0.
    destruct (IH (S i) acc (out ++ [WarnSkippedRecord i])) as (out' & Hrun & Hlen).
    { intros j d Hj. replace (S i + j)%nat with (i + S j)%nat by lia. by apply Hall. }
    exists (WarnSkippedRecord i :: out'). rewrite Hrun. split.
    + by rewrite <- app_assoc.
    + simpl. by rewrite Hlen.
Qed.

(** When every record is skipped the schedule is empty and one warning per
    record is printed. *)
Lemma generate_optimal_schedule_all_skipped int_of_str records :
  (∀ j data, records !! j = Some data →
             build_client int_of_str j data = Raised ValueError) →
  ∃ out, generate_optimal_schedule int_of_str records = Returned ([], out) ∧
         length out = length records.
Proof.
  intros Hall. unfold generate_optimal_schedule.
  destruct (convert_records_all_skipped int_of_str records 0 [] [] Hall)
    as (out' & Hrun & Hlen).
  rewrite Hrun. simpl. by exists out'.
Qed.

(** A record whose [hours] is a string that is not an integer literal is
    skipped with a warning and the other records are scheduled. *)
Lemma non_numeric_hours_is_skipped int_of_str :
  let good := mkRecord (Some "A"%string) (Some (PyInt 30)) (Some (PyInt 3))
                       (Some (PyBool true)) (Some (PyStr "90210")) in
  let text := mkRecord (Some "B"%string) (Some (PyStr "ten")) (Some (PyInt 2))
                       (Some (PyBool true)) (Some (PyStr "90210")) in
  int_of_str "ten"%string = None →
  ∃ entries,
    generate_optimal_schedule int_of_str [good; text] =
      Returned (entries, [WarnSkippedRecord 1]) ∧
    length entries = 1%nat.
Proof.
  intros good text Hten. unfold generate_optimal_schedule.
  assert (Hconv : convert_records int_of_str 0 [good; text] [] [] =
                  Returned ([mkClient (Given 0) "A" 30 3 true "90210"],
                            [WarnSkippedRecord 1])).
  { subst good text. cbn. unfold build_client. cbn. rewrite Hten. reflexivity. }
  rewrite Hconv. eexists. split; [vm_compute; reflexivity|reflexivity].
Qed.

(** C7, evaluated where the code departs from the claim.  A record whose
    [hours] is [None] makes [int] raise [TypeError]; the conversion loop
    catches [ValueError] only, so the exception leaves
    [generate_optimal_schedule] and the well-formed record before it is
    lost with the whole run. *)
Theorem null_hours_is_fatal :
  ∀ int_of_str,
    let good := mkRecord (Some "A"%string) (Some (PyInt 30)) (Some (PyInt 3))
                         (Some (PyBool true)) (Some (PyStr "90210")) in
    let bad := mkRecord (Some "B"%string) (Some PyNone) (Some (PyInt 2))
                        (Some (PyBool true)) (Some (PyStr "90210")) in
    generate_optimal_schedule int_of_str [good; bad] = Raised TypeError.
Proof. intros int_of_str good bad. reflexivity. Qed.

(** * Further properties of the code *)

(** ** Difficulty sort *)

Lemma difficulty_le_spec a b :
  difficulty_le a b ↔
  (needs_driver a = true ∧ needs_driver b = false) ∨
  (needs_driver a = needs_driver b ∧
   (hours b < hours a ∨ (hours a = hours b ∧ days b <= days a))).
Proof.
  unfold difficulty_le, difficulty_score, score_le.
  destruct (needs_driver a), (needs_driver b); simpl;
    rewrite ?orb_true_iff, ?andb_true_iff, ?Z.ltb_lt, ?Z.eqb_eq, ?Z.leb_le;
    split; intros H; try (intuition (try discriminate; lia)).
Qed.

Lemma difficulty_le_total a b : difficulty_le a b ∨ difficulty_le b a.
Proof.
  rewrite !difficulty_le_spec.
  destruct (needs_driver a), (needs_driver b); try (intuition lia);
    destruct (Z.lt_trichotomy (hours a) (hours b)) as [?|[?|?]];
    destruct (Z.le_gt_cases (days a) (days b)); intuition lia.
Qed.

Lemma difficulty_le_trans a b c :
  difficulty_le a b → difficulty_le b c → difficulty_le a c.
Proof.
  rewrite !difficulty_le_spec.
  destruct (needs_driver a), (needs_driver b), (needs_driver c);
    intuition (try discriminate; try lia).
Qed.

Lemma not_difficulty_le a b : ¬ difficulty_le a b → difficulty_le b a.
Proof. destruct (difficulty_le_total a b); tauto. Qed.

(** Elements with the same key as [c] are met by [insert_by_score] only
    after it has placed [c]. *)
Lemma insert_by_score_filter (P : Client → bool) c l :
  (∀ d, P d = true → P c = true → difficulty_le c d) →
  List.filter P (insert_by_score c l) =
  if P c then c :: List.filter P l else List.filter P l.
Proof.
  intros HP. induction l as [|d l IH]; cbn [insert_by_score].
  - simpl. by destruct (P c).
  - destruct (score_le (difficulty_score c) (difficulty_score d)) eqn:Hcd.
    + simpl. by destruct (P c).
    + cbn [List.filter]. rewrite IH.
      destruct (P d) eqn:Hd, (P c) eqn:Hc; try done.
      pose proof (HP d Hd eq_refl) as Hle. unfold difficulty_le in Hle. congruence.
Qed.

Lemma insert_by_score_sorted c l :
  StronglySorted difficulty_le l → StronglySorted difficulty_le (insert_by_score c l).
Proof.
  induction 1 as [|d l Hl IH Hd]; cbn [insert_by_score].
  - repeat constructor.
  - destruct (score_le (difficulty_score c) (difficulty_score d)) eqn:Hcd.
    + constructor; [by constructor|].
      constructor; [done|].
      eapply Forall_impl; [exact Hd|]. intros e He.
      by apply (difficulty_le_trans c d e).
    + constructor; [done|].
      assert (Hdc : difficulty_le d c).
      { apply not_difficulty_le. unfold difficulty_le. congruence. }
      rewrite (insert_by_score_perm c l). by constructor.
Qed.

Lemma insert_by_score_head c l :
  Forall (difficulty_le c) l → insert_by_score c l = c :: l.
Proof.
  destruct 1 as [|d l Hd _]; cbn [insert_by_score]; [done|].
  unfold difficulty_le in Hd. by rewrite Hd.
Qed.

(** X1.  [sort_by_assignment_difficulty] returns the clients it was given,
    each once, ordered so that clients needing a driver come first, then by
    decreasing hours, then by decreasing days; clients with equal keys keep
    their relative order (the sort is stable), and a list already in that
    order is returned as it is. *)
Theorem sort_by_assignment_difficulty_correct cs :
  sort_by_assignment_difficulty cs ≡ₚ cs ∧
  StronglySorted difficulty_le (sort_by_assignment_difficulty cs) ∧
  (∀ key,
     List.filter (fun c => bool_decide (difficulty_score c = key))
                 (sort_by_assignment_difficulty cs) =
     List.filter (fun c => bool_decide (difficulty_score c = key)) cs) ∧
  (StronglySorted difficulty_le cs → sort_by_assignment_difficulty cs = cs) ∧
  (∀ a b,
     difficulty_le a b ↔
     (needs_driver a = true ∧ needs_driver b = false) ∨
     (needs_driver a = needs_driver b ∧
      (hours b < hours a ∨ (hours a = hours b ∧ days b <= days a)))).
Proof.
  split_and!.
  - apply sort_by_assignment_difficulty_perm.
  - unfold sort_by_assignment_difficulty.
    induction cs as [|c cs IH]; simpl; [constructor|].
    by apply insert_by_score_sorted.
  - intros key. unfold sort_by_assignment_difficulty.
    induction cs as [|c cs IH]; [done|]. cbn [foldr].
    rewrite insert_by_score_filter.
    + cbn [List.filter]. by rewrite IH.
    + intros d Hd Hc. apply bool_decide_eq_true in Hd, Hc.
      unfold difficulty_le. rewrite Hd, Hc.
      destruct key as [[k1 k2] k3]. unfold score_le.
      rewrite !Z.eqb_refl, Z.leb_refl. simpl. by rewrite !orb_true_r.
  - unfold sort_by_assignment_difficulty.
    induction 1 as [|c cs Hs IH Hc]; [done|]. cbn [foldr].
    rewrite IH. by apply insert_by_score_head.
  - apply difficulty_le_spec.
Qed.

Lemma sort_by_assignment_difficulty_correct_witness :
  let a := mkClient (Given 0) "A" 30 3 true "1" in
  let b := mkClient (Given 1) "B" 20 2 false "1" in
  StronglySorted difficulty_le [a; b] ∧
  sort_by_assignment_difficulty [a; b] = [a; b].
Proof.
  intros a b.
  assert (H : StronglySorted difficulty_le [a; b]).
  { repeat constructor. }
  split; [exact H|].
  exact (proj1 (proj2 (proj2 (proj2 (sort_by_assignment_difficulty_correct [a; b])))) H).
Defined.

(** ** Validator / classifier *)

Lemma filter_all_true {A} (f : A → bool) (l : list A) :
  Forall (fun x => f x = true) l → List.filter f l = l.
Proof. induction 1 as [|x l Hx _ IH]; simpl; [done|]. by rewrite Hx, IH. Qed.

Lemma populated_are_populated positions :
  Forall (fun pos => truthy (clients pos) = true)
         (List.filter (fun pos => truthy (clients pos)) positions).
Proof.
  apply Forall_forall. intros p Hp.
  by apply list_elem_of_In, filter_In in Hp as [_ Hp].
Qed.

(** A successful validation is the re-numbering loop over the populated
    positions, all of which passed the checks. *)
Lemma validate_Some_inv positions start v :
  validate_and_return_solution positions start = Some v →
  all_constraints_satisfied
    (List.filter (fun pos => truthy (clients pos)) positions) = true ∧
  v = imap (fun i position => finalize_position (start + Z.of_nat i) position)
           (List.filter (fun pos => truthy (clients pos)) positions).
Proof.
  intros Hv.
  destruct (validate_cases positions start) as [(Hpop & H)|[(_ & _ & H)|(_ & Hall & H)]];
    rewrite H in Hv; simplify_eq.
  - by rewrite Hpop.
  - done.
Qed.

Lemma finalize_position_ok new_id p :
  truthy (clients p) = true → position_ok p = true →
  position_ok (finalize_position new_id p) = true ∧
  truthy (clients (finalize_position new_id p)) = true ∧
  ∀ other_id,
    finalize_position other_id (finalize_position new_id p) =
    with_position_id other_id (finalize_position new_id p).
Proof.
  intros Ht Hok.
  destruct (position_ok_populated p Ht Hok) as ((Hlo & Hhi) & Hd & Hrd).
  split_and!.
  - unfold position_ok, finalize_position. simpl. rewrite Ht, Hrd, eqb_reflx. simpl.
    rewrite (proj2 (Z.leb_le _ _) Hlo), (proj2 (Z.leb_le _ _) Hhi). simpl.
    rewrite (proj2 (Z.ltb_ge _ _) Hd). by rewrite bool_decide_eq_true_2.
  - done.
  - intros other_id. unfold finalize_position, with_position_id. simpl.
    rewrite Ht, Hrd, eqb_reflx. simpl. by rewrite ?eqb_reflx.
Qed.

Lemma forallb_Forall_true {A} (f : A → bool) (l : list A) :
  forallb f l = true ↔ Forall (fun x => f x = true) l.
Proof.
  rewrite forallb_forall, Forall_forall.
  split; intros H x Hx; apply H; by apply list_elem_of_In.
Qed.

(** X2.  Running the validator on its own result changes nothing but the
    identifiers: every position is kept, with the same clients, totals and
    labels, and is numbered from the new offset; with the same offset the
    result is returned as it is. *)
Theorem validate_idempotent positions start v :
  validate_and_return_solution positions start = Some v →
  (∀ other_start,
     validate_and_return_solution v other_start =
     Some (imap (fun i p => with_position_id (other_start + Z.of_nat i) p) v)) ∧
  validate_and_return_solution v start = Some v.
Proof.
  intros Hv. destruct (validate_Some_inv _ _ _ Hv) as [Hall ->].
  set (pop := List.filter (fun pos => truthy (clients pos)) positions) in *.
  set (v := imap (fun i position => finalize_position (start + Z.of_nat i) position) pop).
  assert (Hpop : Forall (fun pos => truthy (clients pos) = true) pop)
    by apply populated_are_populated.
  apply forallb_Forall_true in Hall.
  assert (Hvi : ∀ i q, v !! i = Some q →
            ∃ p, pop !! i = Some p ∧ q = finalize_position (start + Z.of_nat i) p ∧
                 truthy (clients p) = true ∧ position_ok p = true).
  { intros i q Hq. unfold v in Hq. rewrite list_lookup_imap in Hq.
    destruct (pop !! i) as [p|] eqn:Hp; simplify_eq/=.
    exists p. split_and!; try done.
    - by apply (Forall_lookup_1 _ _ _ _ Hpop Hp).
    - by apply (Forall_lookup_1 _ _ _ _ Hall Hp). }
  assert (Hvt : Forall (fun pos => truthy (clients pos) = true) v).
  { apply Forall_lookup. intros i q Hq.
    destruct (Hvi i q Hq) as (p & _ & -> & Ht & Hok).
    by apply finalize_position_ok. }
  assert (Hvok : all_constraints_satisfied v = true).
  { apply forallb_Forall_true, Forall_lookup. intros i q Hq.
    destruct (Hvi i q Hq) as (p & _ & -> & Ht & Hok).
    by apply finalize_position_ok. }
  assert (Hgen : ∀ other_start,
            validate_and_return_solution v other_start =
            Some (imap (fun i p => with_position_id (other_start + Z.of_nat i) p) v)).
  { intros other_start.
    destruct (validate_cases v other_start)
      as [(Hnil & H)|[(_ & Hbad & _)|(_ & _ & H)]].
    - rewrite H. rewrite filter_all_true in Hnil by done. by rewrite Hnil.
    - rewrite filter_all_true in Hbad by done. congruence.
    - rewrite H, filter_all_true by done. f_equal.
      apply list_eq. intros i. rewrite !list_lookup_imap.
      destruct (v !! i) as [q|] eqn:Hq; [|done]. simpl. f_equal.
      destruct (Hvi i q Hq) as (p & _ & -> & Ht & Hok).
      by apply finalize_position_ok. }
  split; [exact Hgen|].
  rewrite Hgen. f_equal. apply list_eq. intros i. rewrite list_lookup_imap.
  destruct (v !! i) as [q|] eqn:Hq; [|done]. simpl. f_equal.
  destruct (Hvi i q Hq) as (p & _ & -> & _). done.
Qed.

Lemma validate_idempotent_witness :
  let a := mkClient (Given 0) "A" 30 3 true "90210" in
  let p := assign_client (new_position 9) a in
  ∃ v, validate_and_return_solution [new_position 8; p] 1 = Some v ∧
       validate_and_return_solution v 1 = Some v ∧
       length v = 1%nat.
Proof.
  intros a p.
  destruct (validate_and_return_solution [new_position 8; p] 1) as [v|] eqn:Hv.
  - exists v. split; [reflexivity|].
    split; [exact (proj2 (validate_idempotent _ _ _ Hv))|].
    vm_compute in Hv. injection Hv as <-. reflexivity.
  - vm_compute in Hv. discriminate Hv.
Defined.

Lemma validate_keeps_content positions start v :
  validate_and_return_solution positions start = Some v →
  Forall2 same_content (List.filter (fun pos => truthy (clients pos)) positions) v.
Proof.
  intros Hv. destruct (validate_Some_inv _ _ _ Hv) as [Hall ->].
  apply forallb_Forall_true in Hall.
  pose proof (populated_are_populated positions) as Hpop.
  apply Forall2_same_length_lookup. split; [by rewrite length_imap|].
  intros i pos q Hpos Hq. rewrite list_lookup_imap, Hpos in Hq. simplify_eq/=.
  pose proof (Forall_lookup_1 _ _ _ _ Hpop Hpos) as Ht.
  pose proof (Forall_lookup_1 _ _ _ _ Hall Hpos) as Hok. simpl in Ht, Hok.
  destruct (position_ok_populated pos Ht Hok) as (_ & _ & Hrd).
  unfold same_content. split_and!; try done. simpl. by rewrite Ht, Hrd, eqb_reflx.
Qed.

(** X3.  The validator is all-or-nothing.  It fails exactly when some
    populated position is outside 16 to 45 hours, above 5 days, or has a
    driver flag different from "some client needs a driver"; otherwise it
    returns one position per populated input position, in order, with the
    same clients, totals, zip codes and driver flag, and drops the empty
    ones. *)
Theorem validate_all_or_nothing positions start :
  (validate_and_return_solution positions start = None ↔
   ∃ pos, pos ∈ positions ∧ clients pos ≠ [] ∧ position_ok pos = false) ∧
  (∀ v, validate_and_return_solution positions start = Some v →
        Forall2 same_content
                (List.filter (fun pos => truthy (clients pos)) positions) v).
Proof.
  split; [apply validate_None_iff|]. intros v. apply validate_keeps_content.
Qed.

Lemma validate_all_or_nothing_witness :
  let a := mkClient (Given 0) "A" 30 3 true "90210" in
  let b := mkClient (Given 1) "B" 10 1 false "90211" in
  let good := assign_client (new_position 1) a in
  let small := assign_client (new_position 2) b in
  (∃ pos, pos ∈ [good; small] ∧ clients pos ≠ [] ∧ position_ok pos = false) ∧
  validate_and_return_solution [good; small] 1 = None.
Proof.
  intros a b good small.
  assert (H : ∃ pos, pos ∈ [good; small] ∧ clients pos ≠ [] ∧ position_ok pos = false).
  { exists small. split; [apply list_elem_of_In; right; by left|].
    split; [discriminate|reflexivity]. }
  split; [exact H|].
  exact (proj2 (proj1 (validate_all_or_nothing [good; small] 1)) H).
Defined.

(** ** Backtracking assignor *)

Lemma any_needs_driver_perm l1 l2 :
  l1 ≡ₚ l2 → any_needs_driver l1 = any_needs_driver l2.
Proof.
  unfold any_needs_driver. induction 1 as [|c l1 l2 _ IH|c d l|l1 l2 l3 _ IH1 _ IH2];
    simpl; [done|by rewrite IH| |congruence].
  by destruct (needs_driver c), (needs_driver d).
Qed.

Lemma truthy_perm {A} (l1 l2 : list A) : l1 ≡ₚ l2 → truthy l1 = truthy l2.
Proof.
  intros H. destruct l1, l2; try done.
  - by apply Permutation_nil_cons in H.
  - symmetry in H. by apply Permutation_nil_cons in H.
Qed.

Lemma any_needs_driver_uniform l b :
  l ≠ [] → (∀ c, c ∈ l → needs_driver c = b) → any_needs_driver l = b.
Proof.
  unfold any_needs_driver. induction l as [|c l IH]; intros Hne Hb; [done|].
  simpl. rewrite (Hb c) by by left.
  destruct l as [|d l]; [simpl; by rewrite orb_false_r|].
  rewrite IH; [by destruct b|done|]. intros e He. apply Hb. by right.
Qed.

Lemma elem_of_list_remove c d l : d ∈ list_remove c l → d ∈ l.
Proof.
  induction l as [|e l IH]; simpl; [done|].
  case_bool_decide; intros Hd; [by right|].
  apply elem_of_cons in Hd as [->|Hd]; [by left|right; by apply IH].
Qed.

(** Driver-homogeneity holds in every state of a position during
    backtracking. *)
Lemma reachable_homogeneous p : reachable p → homogeneous p.
Proof.
  unfold homogeneous.
  induction 1 as [pid|p c Hp IH Hacc|p c Hp IH]; simpl.
  - intros c Hc. by apply elem_of_nil in Hc.
  - intros d Hd. destruct (clients p) as [|e l] eqn:Hcl; simpl.
    + apply list_elem_of_singleton in Hd. by subst.
    + pose proof (IH e ltac:(by left)) as He. rewrite He.
      rewrite <- Hcl in Hd. apply elem_of_app in Hd as [Hd|Hd].
      * rewrite Hcl in Hd. rewrite <- (IH d Hd). done.
      * apply list_elem_of_singleton in Hd. subst d.
        by rewrite (can_accept_driver p c _ Hacc He).
  - unfold unassign_client. case_bool_decide as Hin; [|done]. simpl.
    intros d Hd.
    assert (Hall : ∀ e, e ∈ list_remove c (clients p) →
                        needs_driver e = needs_driver d).
    { intros e He. apply elem_of_list_remove in He, Hd.
      pose proof (IH e He) as H1. pose proof (IH d Hd) as H2. congruence. }
    destruct (list_remove c (clients p)) as [|e l] eqn:Hrem;
      [by apply elem_of_nil in Hd|].
    simpl truthy. cbv iota. f_equal.
    apply any_needs_driver_uniform; [done|exact Hall].
Qed.

(** X4.  What a call of [backtrack_assignment] leaves behind, for positions
    in backtracking states (fresh ones in particular).  Every position keeps
    exact totals and one driver requirement.  When the call succeeds, the
    positions hold the clients they held before plus every client from
    [client_index] on, each once.  When it fails, every position holds the
    clients it held before, with the same hours, days and driver flag: the
    placements tried were all undone. *)
Theorem backtrack_assignment_outcome cs positions client_index found ps' :
  Forall reachable positions →
  backtrack_assignment cs positions client_index = (found, ps') →
  Forall (fun p => position_inv p ∧ homogeneous p) ps' ∧
  if found then all_clients ps' ≡ₚ all_clients positions ++ drop client_index cs
  else Forall2 (fun p p' =>
                  clients p ≡ₚ clients p' ∧ total_hours p' = total_hours p ∧
                  working_days p' = working_days p ∧
                  requires_driver p' = requires_driver p) positions ps'.
Proof.
  intros Hreach Hrun. unfold backtrack_assignment in Hrun.
  destruct (backtrack_from_spec _ _ _ _ Hreach Hrun) as [Hreach' Hres].
  split.
  - eapply Forall_impl; [exact Hreach'|]. intros p Hp.
    split; [by apply reachable_inv|by apply reachable_homogeneous].
  - destruct found; [done|].
    apply Forall2_same_length_lookup. split; [by eapply Forall2_length|].
    intros i p p' Hp Hp'.
    pose proof (Forall2_lookup_lr _ _ _ _ _ _ Hres Hp Hp') as Hperm. simpl in Hperm.
    destruct (reachable_inv p (Forall_lookup_1 _ _ _ _ Hreach Hp)) as [H1 H2 H3 _ _ _].
    destruct (reachable_inv p' (Forall_lookup_1 _ _ _ _ Hreach' Hp')) as [H1' H2' H3' _ _ _].
    split_and!; [done| | |].
    + by rewrite H1, H1', (sum_hours_perm _ _ Hperm).
    + by rewrite H2, H2', (sum_days_perm _ _ Hperm).
    + by rewrite H3, H3', (truthy_perm _ _ Hperm), (any_needs_driver_perm _ _ Hperm).
Qed.

Lemma backtrack_assignment_outcome_witness :
  let a := mkClient (Given 0) "A" 30 1 false "10001" in
  let b := mkClient (Given 1) "B" 30 1 false "10001" in
  ∃ ps', Forall reachable [new_position 1] ∧
         backtrack_assignment [a; b] [new_position 1] 0 = (false, ps') ∧
         Forall2 (fun p p' => clients p ≡ₚ clients p' ∧ total_hours p' = total_hours p ∧
                              working_days p' = working_days p ∧
                              requires_driver p' = requires_driver p)
                 [new_position 1] ps'.
Proof.
  intros a b.
  assert (Hr : Forall reachable [new_position 1]).
  { constructor; [apply reach_new|constructor]. }
  destruct (backtrack_assignment [a; b] [new_position 1] 0) as [found ps'] eqn:Hrun.
  assert (Hf : found = false).
  { vm_compute in Hrun. by injection Hrun as <- _. }
  subst found. exists ps'. split; [exact Hr|]. split; [reflexivity|].
  exact (proj2 (backtrack_assignment_outcome _ _ _ _ _ Hr Hrun)).
Defined.

(** ** Position-count search: shape of a result *)

Lemma same_content_inv p q :
  same_content p q → position_inv p ∧ homogeneous p → position_inv q ∧ homogeneous q.
Proof.
  intros (Hc & Hh & Hd & Hz & Hr) [[H1 H2 H3 H4 H5 H6] Hhom]. split.
  - split; rewrite ?Hc, ?Hh, ?Hd, ?Hz, ?Hr; done.
  - unfold homogeneous. rewrite Hc, Hr. exact Hhom.
Qed.

Lemma position_inv_assign_new pid c :
  position_inv (assign_client (new_position pid) c) ∧
  homogeneous (assign_client (new_position pid) c).
Proof.
  split.
  - split; simpl.
    + unfold sum_hours; simpl; lia.
    + unfold sum_days; simpl; lia.
    + unfold any_needs_driver; simpl. by rewrite orb_false_r.
    + apply NoDup_singleton.
    + intros z Hz. apply list_elem_of_singleton in Hz. subst. by left.
    + intros d Hd _. apply list_elem_of_singleton in Hd. subst. by left.
  - intros d Hd. simpl in *. apply list_elem_of_singleton in Hd. by subst.
Qed.

Lemma validated_from_reachable raw start sol :
  Forall reachable raw →
  validate_and_return_solution raw start = Some sol →
  Forall (fun q => position_inv q ∧ homogeneous q) sol.
Proof.
  intros Hraw Hv. pose proof (validate_keeps_content _ _ _ Hv) as Hcont.
  apply Forall_lookup. intros i q Hq.
  destruct (Forall2_lookup_r _ _ _ _ _ Hcont Hq) as (p & Hp & Hpq).
  apply (same_content_inv p q Hpq).
  assert (Hin : In p raw).
  { apply (proj1 (filter_In _ _ _)
             (proj1 (list_elem_of_In _ _) (list_elem_of_lookup_2 _ _ _ Hp))). }
  apply list_elem_of_In in Hin.
  pose proof (proj1 (Forall_forall _ _) Hraw p Hin) as Hr.
  split; [by apply reachable_inv|by apply reachable_homogeneous].
Qed.

Lemma attempt_assignment_positions cs target start sol :
  attempt_assignment cs target start = Some sol →
  Forall (fun q => position_inv q ∧ homogeneous q) sol.
Proof.
  unfold attempt_assignment, backtrack_assignment. intros H.
  destruct (truthy cs); simpl in H; [|by simplify_eq].
  destruct (target =? 0); [done|]. rewrite drop_0 in H.
  destruct (backtrack_from _ _) as [found raw] eqn:Hbt.
  destruct found; simpl in H; [|done].
  destruct (truthy raw); [|done].
  destruct (validate_and_return_solution raw start) as [v|] eqn:Hv; [|done].
  destruct (truthy v); [|done].
  case_bool_decide; [|done]. simplify_eq.
  assert (Hnew : Forall reachable
                   ((fun i => new_position (start + i)) <$> seqZ 0 target)).
  { apply Forall_fmap, Forall_forall. intros i _. apply reach_new. }
  destruct (backtrack_from_spec _ _ _ _ Hnew Hbt) as [Hreach _].
  by eapply validated_from_reachable.
Qed.

Lemma search_targets_positions cs start targets :
  Forall (fun q => position_inv q ∧ homogeneous q) (search_targets cs start targets).
Proof.
  induction targets as [|t later IH]; simpl; [done|].
  destruct (attempt_assignment cs t start) as [sol|] eqn:Hatt; [|done].
  destruct (truthy sol) eqn:Ht; [|done].
  case_bool_decide; [|done].
  by eapply attempt_assignment_positions.
Qed.

Lemma search_positions cs start :
  Forall (fun q => position_inv q ∧ homogeneous q)
         (constraint_satisfaction_algorithm cs start).
Proof.
  unfold constraint_satisfaction_algorithm, search_range.
  destruct (truthy cs); simpl; [|done].
  destruct (sum_hours cs =? 0).
  - destruct (truthy (positive_hours cs)); simpl; [|done].
    apply search_targets_positions.
  - apply search_targets_positions.
Qed.

Lemma split_loop_positions k cs id :
  Forall (fun p => position_inv p ∧ homogeneous p) (split_loop k cs id [] []).1.
Proof.
  revert k id. induction cs as [|c rest IH]; intros k id; [done|].
  destruct (Z.ltb_spec 45 (hours c)) as [Hc|Hc].
  - rewrite split_loop_cons_oversized by done. apply Forall_app. split; [|apply IH].
    unfold split_positions. apply Forall_fmap, Forall_forall. intros i _.
    apply position_inv_assign_new.
  - rewrite split_loop_cons_small by done. apply IH.
Qed.

Lemma stamp_types_content p : same_content p (stamp_types p).
Proof. by unfold same_content. Qed.

Lemma search_finalized cs start i p :
  constraint_satisfaction_algorithm cs start !! i = Some p →
  finalized (start + Z.of_nat i) p.
Proof.
  intros Hi. destruct (search_validated cs start) as [Hnil|[raw Hraw]].
  - by rewrite Hnil in Hi.
  - by apply (validate_finalized raw start _ i p Hraw).
Qed.

(** X5.  In every position returned by the position-count search and by
    the orchestrator, [total_hours] and [working_days] are the sums over
    the clients of the position, the zip codes are without duplicates and
    are zip codes of its clients (all the non-empty ones among them), and
    the driver flag is the need of every client of the position: no
    position mixes clients that need a driver with clients that do not. *)
Theorem returned_positions_consistent :
  (∀ cs start,
     Forall (fun q => position_inv q ∧ homogeneous q)
            (constraint_satisfaction_algorithm cs start)) ∧
  (∀ cs,
     Forall (fun q => position_inv q ∧ homogeneous q)
            (optimize_with_strategic_enhancements cs).1).
Proof.
  split; [apply search_positions|].
  intros cs. destruct (optimize_cases cs) as [Hnil|(final & Hv & Hopt)].
  { by rewrite Hnil. }
  rewrite Hopt. cbn [fst].
  pose proof (validate_keeps_content _ _ _ Hv) as Hcont.
  apply Forall_lookup. intros i q Hq.
  destruct (Forall2_lookup_r _ _ _ _ _ Hcont Hq) as (p & Hp & Hpq).
  apply (same_content_inv p q Hpq).
  assert (Hin : In p ((stamp_types <$> (handle_mandatory_splits cs 1).1) ++
                      (if truthy (handle_mandatory_splits cs 1).2
                       then constraint_satisfaction_algorithm
                              (handle_mandatory_splits cs 1).2
                              (if truthy (handle_mandatory_splits cs 1).1
                               then max_position_id (handle_mandatory_splits cs 1).1 + 1
                               else 1)
                       else []))).
  { apply (proj1 (filter_In _ _ _)
             (proj1 (list_elem_of_In _ _) (list_elem_of_lookup_2 _ _ _ Hp))). }
  apply list_elem_of_In, elem_of_app in Hin as [Hin|Hin].
  - apply list_elem_of_fmap in Hin as (p0 & -> & Hp0).
    apply (same_content_inv p0 _ (stamp_types_content p0)).
    by apply (proj1 (Forall_forall _ _) (split_loop_positions 0 cs 1)).
  - destruct (truthy _) in Hin; [|by apply elem_of_nil in Hin].
    exact (proj1 (Forall_forall _ _) (search_positions _ _) p Hin).
Qed.

Lemma length_le_all_clients l :
  Forall (fun p => clients p ≠ []) l → (length l <= length (all_clients l))%nat.
Proof.
  unfold all_clients. induction 1 as [|p l Hp _ IH]; csimpl; [done|].
  rewrite length_app. destruct (clients p); [done|]. simpl. lia.
Qed.

Lemma sum_total_hours_bounds lo hi l :
  Forall (fun p => lo <= total_hours p <= hi) l →
  lo * Z.of_nat (length l) <= sum_total_hours l <= hi * Z.of_nat (length l).
Proof.
  unfold sum_total_hours. induction 1 as [|p l Hp _ IH]; [simpl; lia|].
  cbn [foldr length]. lia.
Qed.

Lemma ceil_div_45_le total n : total <= 45 * n → ceil_div total 45 <= n.
Proof.
  intros H. unfold ceil_div.
  pose proof (Z.div_mod (- total) 45 ltac:(lia)) as Hdm.
  pose proof (Z.mod_pos_bound (- total) 45 ltac:(lia)) as Hmod.
  lia.
Qed.

Lemma search_result_finalized cs start :
  Forall (fun p => clients p ≠ [] ∧ 16 <= total_hours p <= 45 ∧ working_days p <= 5)
         (constraint_satisfaction_algorithm cs start).
Proof.
  apply Forall_lookup. intros i p Hi.
  destruct (search_finalized cs start i p Hi) as (_ & Hne & Hh & Hd & _).
  done.
Qed.

Lemma positive_hours_nil_of_zero_sum cs :
  Forall (fun c => 0 <= hours c) cs → sum_hours cs = 0 → positive_hours cs = [].
Proof.
  unfold positive_hours, sum_hours.
  induction 1 as [|c l Hc Hl IH]; simpl; [done|]. intros Hsum.
  assert (Hrest : 0 <= foldr (fun c acc => hours c + acc) 0 l).
  { clear -Hl. induction Hl as [|d l Hd _ IH]; simpl; lia. }
  rewrite (proj2 (Z.ltb_ge 0 (hours c))) by lia. apply IH. lia.
Qed.

Lemma search_result_hours cs start :
  Forall (fun p => 16 <= total_hours p <= 45)
         (constraint_satisfaction_algorithm cs start).
Proof.
  eapply Forall_impl; [apply search_result_finalized|]. by intros p (_ & H & _).
Qed.

Lemma search_result_populated cs start :
  Forall (fun p => clients p ≠ []) (constraint_satisfaction_algorithm cs start).
Proof.
  eapply Forall_impl; [apply search_result_finalized|]. by intros p (H & _).
Qed.



(** With hours that are not negative, a non-empty result of the search
    holds exactly the clients it was given. *)
Lemma search_partition cs start :
  Forall (fun c => 0 <= hours c) cs →
  constraint_satisfaction_algorithm cs start ≠ [] →
  all_clients (constraint_satisfaction_algorithm cs start) ≡ₚ cs ∧
  sum_total_hours (constraint_satisfaction_algorithm cs start) = sum_hours cs.
Proof.
  intros Hpos Hne. destruct (search_complete cs start Hne) as [Hperm Hcons].
  assert (Hall : all_clients (constraint_satisfaction_algorithm cs start) ≡ₚ cs).
  { destruct (Z.eqb_spec (sum_hours cs) 0) as [Hz|Hnz]; [|done].
    rewrite (positive_hours_nil_of_zero_sum cs Hpos Hz) in Hperm.
    apply Permutation_nil_r in Hperm.
    pose proof (search_result_finalized cs start) as Hfin.
    destruct (constraint_satisfaction_algorithm cs start) as [|p l]; [done|].
    apply Forall_cons in Hfin as [(Hp & _) _].
    unfold all_clients in Hperm. csimpl in Hperm.
    by apply app_eq_nil in Hperm as [? _]. }
  split; [done|].
  rewrite (sum_total_hours_consistent _ Hcons). apply sum_hours_perm. exact Hall.
Qed.

(** X6.  When the clients have no negative hours and the search returns a
    schedule, every client is in exactly one returned position, the hours of
    the positions add up to the hours of the clients, and the number of
    positions lies between [theoretical_min] and [practical_max]. *)
Theorem search_result_partition cs start :
  Forall (fun c => 0 <= hours c) cs →
  constraint_satisfaction_algorithm cs start ≠ [] →
  let result := constraint_satisfaction_algorithm cs start in
  all_clients result ≡ₚ cs ∧
  sum_total_hours result = sum_hours cs ∧
  theoretical_min cs (sum_hours cs) <= Z.of_nat (length result) <= practical_max cs.
Proof.
  intros Hpos Hne result. subst result.
  destruct (search_partition cs start Hpos Hne) as [Hperm Hsum].
  split; [done|]. split; [done|].
  pose proof (sum_total_hours_bounds 16 45 _ (search_result_hours cs start)) as Hb.
  pose proof (length_le_all_clients _ (search_result_populated cs start)) as Hlen.
  rewrite Hperm in Hlen. rewrite Hsum in Hb.
  assert (Hlen1 : 1 <= Z.of_nat (length (constraint_satisfaction_algorithm cs start))).
  { destruct (constraint_satisfaction_algorithm cs start); [done|simpl; lia]. }
  unfold theoretical_min, practical_max.
  assert (Htr : truthy cs = true).
  { destruct cs; [|done]. exfalso. by apply Hne. }
  rewrite Htr. rewrite (proj2 (Z.ltb_lt 0 (sum_hours cs))) by lia.
  pose proof (ceil_div_45_le (sum_hours cs) _ (proj2 Hb)). lia.
Qed.

Lemma search_result_partition_witness :
  let d := mkClient (Given 0) "D" 20 2 true "90212" in
  let e := mkClient (Given 1) "E" 25 3 false "90213" in
  let f := mkClient (Given 2) "F" 18 2 true "90212" in
  Forall (fun c => 0 <= hours c) [d; e; f] ∧
  constraint_satisfaction_algorithm [d; e; f] 1 ≠ [] ∧
  all_clients (constraint_satisfaction_algorithm [d; e; f] 1) ≡ₚ [d; e; f] ∧
  sum_total_hours (constraint_satisfaction_algorithm [d; e; f] 1) = 63.
Proof.
  intros d e f.
  assert (H1 : Forall (fun c => 0 <= hours c) [d; e; f]).
  { repeat constructor; simpl; lia. }
  assert (H2 : constraint_satisfaction_algorithm [d; e; f] 1 ≠ []).
  { vm_compute. discriminate. }
  destruct (search_result_partition [d; e; f] 1 H1 H2) as (Hp & Hs & _).
  split; [exact H1|]. split; [exact H2|]. split; [exact Hp|exact Hs].
Defined.






(** ** Oversized-client splitter: shape of the positions *)

Lemma split_part_hours_ge k client i :
  45 < hours client → 0 <= i →
  23 <= hours (split_client_part k client (ceil_div (hours client) 45) i).
Proof.
  intros Hh Hi. simpl.
  destruct (ceil_div_45_bounds _ Hh) as (Hn & Hlow & Hup).
  set (n := ceil_div (hours client) 45) in *.
  pose proof (Z.div_mod (hours client) n ltac:(lia)) as Hdm.
  pose proof (Z.mod_pos_bound (hours client) n ltac:(lia)) as Hmod.
  destruct (Z.ltb_spec i (hours client `mod` n)); nia.
Qed.

(** Every position made by the splitter comes from one part of one
    oversized client of the input, and is numbered by its place in the
    list. *)
Lemma split_loop_lookup k cs id i p :
  (split_loop k cs id [] []).1 !! i = Some p →
  ∃ k' c j,
    c ∈ cs ∧ 45 < hours c ∧ 0 <= j < ceil_div (hours c) 45 ∧
    p = assign_client (new_position (id + Z.of_nat i))
          (split_client_part k' c (ceil_div (hours c) 45) j).
Proof.
  revert k id i. induction cs as [|c rest IH]; intros k id i Hi; [done|].
  destruct (Z.ltb_spec 45 (hours c)) as [Hc|Hc].
  - rewrite split_loop_cons_oversized in Hi by done.
    pose proof (length_split_positions k c id Hc) as Hlen.
    destruct (decide (i < length (split_positions k c id))%nat) as [Hlt|Hge].
    + rewrite lookup_app_l in Hi by done.
      rewrite <- (Nat2Z.id i) in Hi.
      rewrite split_positions_lookup in Hi by lia. simplify_eq.
      exists k, c, (Z.of_nat i). split_and!; [by left|done|lia|lia|done].
    + rewrite lookup_app_r in Hi by lia.
      destruct (IH _ _ _ Hi) as (k' & c' & j & Hin & Hbig & Hj & ->).
      exists k', c', j. split_and!; [by right|done|lia|lia|].
      do 2 f_equal. lia.
  - rewrite split_loop_cons_small in Hi by done.
    destruct (IH _ _ _ Hi) as (k' & c' & j & Hin & Hbig & Hj & ->).
    exists k', c', j. split_and!; [by right|done|lia|lia|done].
Qed.

(** X8.  The positions made by the splitter are numbered consecutively
    from [start_pos_id] in the order of the list; each holds exactly one
    sub-client, has between 23 and 45 hours and a driver flag equal to the
    need of its client, so it passes the final check of a populated
    position exactly when it has at most 5 working days. *)
Theorem split_positions_shape cs start i p :
  (handle_mandatory_splits cs start).1 !! i = Some p →
  position_id p = start + Z.of_nat i ∧
  (∃ part, clients p = [part] ∧ total_hours p = hours part ∧
           working_days p = days part ∧
           requires_driver p = Some (needs_driver part)) ∧
  23 <= total_hours p <= 45 ∧
  (position_ok p = true ↔ working_days p <= 5).
Proof.
  intros Hi. unfold handle_mandatory_splits in Hi.
  destruct (split_loop_lookup _ _ _ _ _ Hi) as (k' & c & j & Hin & Hbig & Hj & ->).
  pose proof (split_part_hours_ge k' c j Hbig (proj1 Hj)) as Hge.
  pose proof (split_part_hours_le k' c j Hbig (proj1 Hj)) as Hle.
  set (part := split_client_part k' c (ceil_div (hours c) 45) j) in *.
  split_and!; try done.
  - exists part. by split_and!.
  - unfold position_ok. cbn [assign_client new_position clients total_hours
                              working_days requires_driver app truthy negb].
    rewrite !Z.add_0_l.
    rewrite (proj2 (Z.leb_le 16 _)) by lia. rewrite (proj2 (Z.leb_le _ 45)) by lia.
    cbn [andb negb].
    rewrite bool_decide_eq_true_2
      by (unfold any_needs_driver; simpl; by rewrite orb_false_r).
    cbn [negb]. destruct (Z.ltb_spec 5 (days part)); split; intros; (done || lia).
Qed.

Lemma split_positions_shape_witness :
  let o := mkClient (Given 0) "O" 48 5 true "90210" in
  ∃ p, (handle_mandatory_splits [o] 7).1 !! 1%nat = Some p ∧
       position_id p = 8 ∧ 23 <= total_hours p <= 45.
Proof.
  intros o.
  destruct ((handle_mandatory_splits [o] 7).1 !! 1%nat) as [p|] eqn:Hp.
  - exists p. split; [reflexivity|].
    destruct (split_positions_shape [o] 7 1 p Hp) as (Hid & _ & Hh & _).
    split; [exact Hid|exact Hh].
  - vm_compute in Hp. discriminate Hp.
Defined.




(** ** Orchestrator: what is kept and what is dropped *)






(** X11.  A non-empty result of the orchestrator (for clients without
    negative hours) holds every part of every split client and either all
    the clients that needed no split or none of them: when the search finds
    no schedule for those clients they are dropped together, with the
    warning. *)
Theorem orchestrator_keeps_all_or_none cs :
  Forall (fun c => 0 <= hours c) cs →
  (optimize_with_strategic_enhancements cs).1 ≠ [] →
  let result := (optimize_with_strategic_enhancements cs).1 in
  let out := (optimize_with_strategic_enhancements cs).2 in
  let parts := all_clients (handle_mandatory_splits cs 1).1 in
  let remaining := (handle_mandatory_splits cs 1).2 in
  all_clients result ≡ₚ parts ++ remaining ∨
  (all_clients result = parts ∧ remaining ≠ [] ∧
   WarnNoSolutionForRemaining (length remaining) ∈ out).
Proof.
  intros Hpos Hne result out parts remaining. subst result out parts remaining.
  destruct (optimize_cases cs) as [Hnil|(final & Hv & Hopt)]; [done|].
  rewrite Hopt. cbn [fst snd].
  rewrite (validate_keeps_clients _ _ _ Hv), all_clients_app, all_clients_stamped.
  pose proof (split_loop_kept 0 cs 1) as Hkept.
  fold (handle_mandatory_splits cs 1) in Hkept.
  destruct (truthy (handle_mandatory_splits cs 1).2) eqn:Hrem.
  - match goal with
    | |- context [constraint_satisfaction_algorithm ?r ?n] =>
        destruct (decide (constraint_satisfaction_algorithm r n = [])) as [Hnone|Hsome]
    end.
    + right. rewrite Hnone. cbn [all_clients fmap list_fmap concat truthy negb andb].
      rewrite app_nil_r. split_and!; [done|by apply truthy_true_ne|].
      apply elem_of_app. left. by left.
    + left. apply Permutation_app_head.
      apply search_partition; [|done]. rewrite Hkept.
      apply Forall_forall. intros c Hc.
      apply list_elem_of_In, filter_In in Hc as [Hc _].
      by apply (proj1 (Forall_forall _ _) Hpos), list_elem_of_In.
  - left. apply truthy_false_nil in Hrem. by rewrite Hrem.
Qed.

Lemma orchestrator_keeps_all_or_none_witness :
  let o := mkClient (Given 0) "O" 48 5 true "90210" in
  let n := mkClient (Given 1) "N" 10 1 false "90211" in
  Forall (fun c => 0 <= hours c) [o; n] ∧
  (optimize_with_strategic_enhancements [o; n]).1 ≠ [] ∧
  (n ∉ all_clients (optimize_with_strategic_enhancements [o; n]).1) ∧
  length (all_clients (optimize_with_strategic_enhancements [o; n]).1) = 2%nat.
Proof.
  intros o n.
  assert (H1 : Forall (fun c => 0 <= hours c) [o; n]).
  { repeat constructor; simpl; lia. }
  assert (H2 : (optimize_with_strategic_enhancements [o; n]).1 ≠ []).
  { vm_compute. discriminate. }
  split; [exact H1|]. split; [exact H2|].
  destruct (orchestrator_keeps_all_or_none [o; n] H1 H2) as [Hall|(Hnone & _)].
  - exfalso. apply Permutation_length in Hall. vm_compute in Hall. discriminate Hall.
  - rewrite Hnone. split; [|reflexivity].
    intros Hin. vm_compute in Hin.
    apply elem_of_cons in Hin as [Hin|Hin]; [discriminate Hin|].
    apply elem_of_cons in Hin as [Hin|Hin]; [discriminate Hin|].
    by apply elem_of_nil in Hin.
Defined.

(** ** Front end: exceptions and entries *)




Local Instance string_le_total : Total string_le.
Proof.
  intros a b. unfold string_le.
  destruct (String.leb_total a b) as [H|H]; rewrite H; [by left|by right].
Qed.

Lemma sorted_unique_spec zs :
  NoDup (sorted_unique zs) ∧ Sorted string_le (sorted_unique zs) ∧
  ∀ z, z ∈ sorted_unique zs ↔ z ∈ zs.
Proof.
  unfold sorted_unique. split_and!.
  - rewrite merge_sort_Permutation. apply NoDup_elements.
  - apply (Sorted_merge_sort string_le).
  - intros z. rewrite merge_sort_Permutation, elem_of_elements, elem_of_list_to_set.
    done.
Qed.

Lemma to_entry_contract i pos :
  finalized (1 + Z.of_nat i) pos → entry_contract i (to_entry pos).
Proof.
  intros (Hid & Hne & (Hlo & Hhi) & Hd & Hrd & Hty & (b & Hb & Hdt)).
  destruct (sorted_unique_spec (zip_codes pos)) as (Hnd & Hs & _).
  unfold entry_contract, to_entry. cbn [caregiver_id weekly_hours entry_working_days
    entry_clients driver_required entry_type entry_zip_codes].
  rewrite Hid, Hty, Hdt. split_and!; try done.
  - intros Hnil. apply fmap_nil_inv in Hnil. done.
  - exists b. split; [done|]. by destruct (total_hours pos <=? 24), b.
Qed.

(** X13.  Every entry of a schedule returned by
    [generate_optimal_schedule] is labelled [CG_1], [CG_2], ... in order,
    has between 16 and 45 weekly hours, at most 5 working days, at least
    one client, a type made of the tier ([Part-time] up to 24 hours,
    [Full-time] above) and of [Driver] or [Non-driver] according to
    [driver_required], and zip codes without duplicates in increasing
    order. *)
Theorem generate_optimal_schedule_entries int_of_str records entries out :
  generate_optimal_schedule int_of_str records = Returned (entries, out) →
  ∀ i e, entries !! i = Some e → entry_contract i e.
Proof.
  unfold generate_optimal_schedule. intros Hgen i e Hi.
  destruct (convert_records int_of_str 0 records [] []) as [[cs o]|]; [|done].
  destruct (negb (truthy cs)); [by simplify_eq|].
  destruct (optimize_with_strategic_enhancements cs) as [ps o'] eqn:Hopt.
  destruct (negb (truthy ps)); simplify_eq.
  rewrite list_lookup_fmap in Hi.
  destruct (ps !! i) as [pos|] eqn:Hpos; simplify_eq/=.
  apply to_entry_contract.
  destruct (optimize_validated cs) as [Hnil|[merged Hm]]; rewrite Hopt in *; simpl in *.
  - by subst.
  - by apply (validate_finalized merged 1 ps i pos Hm).
Qed.

Lemma generate_optimal_schedule_entries_witness :
  let rec := mkRecord (Some "A"%string) (Some (PyInt 30)) (Some (PyInt 3))
                      (Some (PyBool true)) (Some (PyStr "90210")) in
  let f := fun _ : string => @None Z in
  ∃ e out, generate_optimal_schedule f [rec] = Returned ([e], out) ∧
           entry_contract 0 e ∧ entry_type e = "Full-time Driver"%string.
Proof.
  intros rec f.
  destruct (generate_optimal_schedule f [rec]) as [[entries out]|] eqn:Hgen.
  - destruct entries as [|e [|e' rest]];
      [vm_compute in Hgen; discriminate Hgen| |vm_compute in Hgen; discriminate Hgen].
    exists e, out. split; [reflexivity|].
    split; [exact (generate_optimal_schedule_entries f [rec] [e] out Hgen 0%nat e eq_refl)|].
    vm_compute in Hgen. injection Hgen as <- _. reflexivity.
  - vm_compute in Hgen. discriminate Hgen.
Defined.

